(** * Message peeking in pulsar-admin-go: a shallow embedding

    This development embeds the message-peek pipeline of
    [pkg/pulsar/subscription.go] ([PeekMessages], [peekNthMessage],
    [handleResp], [getIndividualMsgsFromBatch]) and states its properties.

    Conventions.
    - A Go [int] is a [Z]; the code never performs arithmetic that could leave
      the 64-bit range on the inputs considered, so no wrap-around is written.
    - A Go [[]byte] is a [list byte]; a nil slice and an empty slice are both [[]].
    - A Go [map[string]string] is a reference: it lives in a store
      ([heap]) and values that hold it hold its location.
    - A Go function returning [(v, err)] returns a pair [(v, option error)];
      a run-time panic is a separate outcome. *)

From Stdlib Require Import ZArith Lia List.
From Stdlib.Strings Require Import Ascii String Byte.
From stdpp Require Import base option list gmap strings fin_maps.

Local Open Scope string_scope.
Local Open Scope Z_scope.

(** ** Errors and outcomes *)

Inductive error : Type :=
  | EOF                         (* io.EOF *)
  | ErrUnexpectedEOF            (* io.ErrUnexpectedEOF *)
  | NumError (input : string)   (* *strconv.NumError *)
  | OtherError (msg : string).  (* errors of the collaborators *)

Inductive outcome (A : Type) : Type :=
  | Done (a : A)
  | Panic (msg : string).
Arguments Done {A} a.
Arguments Panic {A} msg.

(** ** The store: maps are shared by reference, requests are logged *)

Definition loc := positive.

Record state : Type := State {
  heap : gmap loc (gmap string string);
  sent : list Z                  (* positions requested so far, oldest first *)
}.

Definition M (A : Type) : Type := state -> outcome A * state.

Definition ret {A} (a : A) : M A := fun σ => (Done a, σ).

Definition bind {A B} (m : M A) (k : A -> M B) : M B :=
  fun σ => match m σ with
           | (Done a, σ') => k a σ'
           | (Panic msg, σ') => (Panic msg, σ')
           end.

Definition panic {A} (msg : string) : M A := fun σ => (Panic msg, σ).

Notation "x <~ m ;; k" := (bind m (fun x => k))
  (at level 100, m at next level, right associativity).
Notation "m ;;; k" := (bind m (fun _ => k))
  (at level 100, right associativity).

(** [make(map[string]string)] *)
Definition makeMap : M loc :=
  fun σ => let l := fresh (dom (heap σ)) in
           (Done l, State (<[l := ∅]> (heap σ)) (sent σ)).

(** [m[k] = v]; a location that holds no map is the nil map. *)
Definition mapStore (l : loc) (k v : string) : M unit :=
  fun σ => match heap σ !! l with
           | Some m => (Done tt, State (<[l := <[k := v]> m]> (heap σ)) (sent σ))
           | None => (Panic "assignment to entry in nil map", σ)
           end.

(** [m[k]] as an expression: the zero value when the key is absent. *)
Definition mapIndex (σ : state) (l : loc) (k : string) : string :=
  match heap σ !! l with
  | Some m => default "" (m !! k)
  | None => ""
  end.

Definition mapLoad (l : loc) (k : string) : M string :=
  fun σ => (Done (mapIndex σ l k), σ).

(** The mapping a reference denotes in a store. *)
Definition deref (σ : state) (l : loc) : gmap string string :=
  default ∅ (heap σ !! l).

(** A computation that issues no request. *)
Definition silent {A} (m : M A) : Prop :=
  forall σ o σ', m σ = (o, σ') -> sent σ' = sent σ.

(** ** Go standard library, as used by the code *)

(** [strings.HasPrefix], [strings.TrimPrefix], [strings.Contains]. *)
Fixpoint HasPrefix (s p : string) : bool :=
  match p, s with
  | EmptyString, _ => true
  | String a p', String b s' => if Ascii.eqb a b then HasPrefix s' p' else false
  | String _ _, EmptyString => false
  end.

Fixpoint dropString (n : nat) (s : string) : string :=
  match n, s with
  | O, _ => s
  | S n', String _ s' => dropString n' s'
  | S _, EmptyString => EmptyString
  end.

Definition TrimPrefix (s p : string) : string :=
  if HasPrefix s p then dropString (String.length p) s else s.

Fixpoint Contains (s sub : string) : bool :=
  if HasPrefix s sub then true
  else match s with
       | EmptyString => false
       | String _ s' => Contains s' sub
       end.

(** [strconv.Atoi] on a 64-bit platform: an optional sign followed by one or
    more decimal digits, whose value fits an [int]. *)
Definition digitVal (a : ascii) : option Z :=
  let n := Z.of_N (N_of_ascii a) in
  if (48 <=? n) && (n <=? 57) then Some (n - 48) else None.

Fixpoint digits (s : string) (acc : Z) : option Z :=
  match s with
  | EmptyString => Some acc
  | String a s' => match digitVal a with
                   | Some d => digits s' (acc * 10 + d)
                   | None => None
                   end
  end.

Definition maxInt : Z := 2 ^ 63 - 1.
Definition minInt : Z := - 2 ^ 63.

Definition Atoi (s : string) : error + Z :=
  let '(neg, body) :=
    match s with
    | String "-" s' => (true, s')
    | String "+" s' => (false, s')
    | _ => (false, s)
    end in
  match body with
  | EmptyString => inl (NumError s)
  | _ => match digits body 0 with
         | None => inl (NumError s)
         | Some v => let n := if neg then - v else v in
                     if (minInt <=? n) && (n <=? maxInt) then inr n
                     else inl (NumError s)
         end
  end.

(** [textproto.CanonicalMIMEHeaderKey]: a key made only of token bytes is
    rewritten with the first letter and every letter after a dash in upper
    case and all other letters in lower case; any other key is unchanged. *)
Definition validHeaderFieldByte (a : ascii) : bool :=
  let n := Z.of_N (N_of_ascii a) in
  ((48 <=? n) && (n <=? 57)) || ((65 <=? n) && (n <=? 90)) || ((97 <=? n) && (n <=? 122))
  || bool_decide (a ∈ ["!"; "#"; "$"; "%"; "&"; "'"; "*"; "+"; "-"; "."; "^"; "_"; "`"; "|"; "~"]%char).

Fixpoint allValid (s : string) : bool :=
  match s with
  | EmptyString => true
  | String a s' => validHeaderFieldByte a && allValid s'
  end.

Definition shiftCase (upper : bool) (a : ascii) : ascii :=
  let n := Z.of_N (N_of_ascii a) in
  if upper && (97 <=? n) && (n <=? 122) then ascii_of_N (Z.to_N (n - 32))
  else if negb upper && (65 <=? n) && (n <=? 90) then ascii_of_N (Z.to_N (n + 32))
  else a.

Fixpoint canonicalize (upper : bool) (s : string) : string :=
  match s with
  | EmptyString => EmptyString
  | String a s' => let c := shiftCase upper a in
                   String c (canonicalize (Ascii.eqb c "-") s')
  end.

Definition CanonicalMIMEHeaderKey (s : string) : string :=
  if allValid s then canonicalize true s else s.

(** [http.Header] and [Header.Get]: the first value stored under the
    canonical form of the key, or the empty string. *)
Definition Header_Get (h : gmap string (list string)) (key : string) : string :=
  match h !! CanonicalMIMEHeaderKey key with
  | Some (v :: _) => v
  | _ => ""
  end.

(** [bytes.Reader] is the list of bytes not read yet. [io.ReadFull] into a
    buffer of [n] bytes ([0 <= n]): nothing is read for [n = 0]; [io.EOF]
    when no byte is left; [io.ErrUnexpectedEOF], having consumed the rest,
    when fewer than [n] are left. *)
Definition ReadFull (rd : list byte) (n : Z) : (error + list byte) * list byte :=
  if n =? 0 then (inr [], rd)
  else match rd with
       | [] => (inl EOF, rd)
       | _ => if Z.of_nat (length rd) <? n then (inl ErrUnexpectedEOF, [])
              else (inr (take (Z.to_nat n) rd), drop (Z.to_nat n) rd)
       end.

Definition byteZ (b : byte) : Z := Z.of_N (Byte.to_N b).

(** [binary.BigEndian.Uint32] *)
Definition Uint32 (b : list byte) : Z :=
  match b with
  | [b0; b1; b2; b3] =>
      Z.lor (Z.lor (Z.lor (byteZ b3) (Z.shiftl (byteZ b2) 8))
                   (Z.shiftl (byteZ b1) 16))
            (Z.shiftl (byteZ b0) 24)
  | _ => 0
  end.

(** ** Data model (package [utils]) *)

(** Modelled from the spec: the declaration of [utils.MessageID] is not part
    of the sources at hand. It is a ledger/entry coordinate plus a
    [BatchIndex]; the code only ever writes [BatchIndex]. *)
Record MessageID : Type := mkMessageID {
  LedgerID : Z;
  EntryID : Z;
  BatchIndex : Z
}.

Definition setBatchIndex (id : MessageID) (i : Z) : MessageID :=
  mkMessageID (LedgerID id) (EntryID id) i.

(** [utils.Message], with the fields of the struct literal in
    [getIndividualMsgsFromBatch]. [MsgID] is the Go field [MessageID];
    [Properties] holds a map, hence a location. *)
Record Message : Type := mkMessage {
  Topic : string;
  MsgID : MessageID;
  Payload : list byte;
  Properties : loc
}.

(** Modelled from the spec: [utils.NewMessage] is not part of the sources at
    hand; it builds the one Message of a non-batched response from the topic,
    the message id, the full body and the accumulated properties. *)
Definition NewMessage (topic : string) (id : MessageID) (payload : list byte)
    (properties : loc) : Message :=
  mkMessage topic id payload properties.

(** [utils.KeyValue] and [utils.SingleMessageMetadata]: generated protobuf
    structs whose fields are pointers ([None] is nil). *)
Record KeyValue : Type := mkKeyValue {
  Key : option string;
  Value : option string
}.

Record SingleMessageMetadata : Type := mkSingleMessageMetadata {
  MetaProperties : list KeyValue;
  PayloadSize : option Z
}.

Definition GetPayloadSize (m : SingleMessageMetadata) : Z :=
  default 0 (PayloadSize m).

(** [http.Response], as far as the code looks at it: its header and what
    [ioutil.ReadAll] makes of its body. *)
Record Response : Type := mkResponse {
  Header : gmap string (list string);
  Body : error + list byte
}.

(** ** Collaborators

    What the pipeline calls but does not define: the topic name type, the
    message-id parser, the protobuf decoder, the HTTP client
    ([newRequest], [doRequest] and [checkSuccessful] for the endpoint of a
    position) and the order in which the runtime ranges over a header. *)
Class Collaborators : Type := {
  TopicName : Type;
  TopicName_String : TopicName -> string;
  ParseMessageID : string -> error + MessageID;
  Unmarshal : list byte -> error + SingleMessageMetadata;
  roundTrip : TopicName -> string -> Z -> error + Response;
  rangeOrder : Response -> list string
}.

(** The keys of a header, in one of the orders [range] may visit them. *)
Definition range_order (h : gmap string (list string)) (ks : list string) : Prop :=
  ks ≡ₚ (map_to_list h).*1.

Definition PublishTimeHeader : string := "X-Pulsar-Publish-Time".
Definition BatchHeader : string := "X-Pulsar-Num-Batch-Message".
Definition PropertyPrefix : string := "X-Pulsar-PROPERTY-".

Section Pipeline.
Context `{C : Collaborators}.

(** ** [getIndividualMsgsFromBatch] *)

(** The inner [for _, v := range singleMeta.Properties]. *)
Fixpoint storeProperties (properties : loc) (kvs : list KeyValue) : M unit :=
  match kvs with
  | [] => ret tt
  | v :: kvs' =>
      match Key v with
      | None => panic "nil pointer dereference"
      | Some k =>
          match Value v with
          | None => panic "nil pointer dereference"
          | Some property =>
              mapStore properties k property ;;;
              storeProperties properties kvs'
          end
      end
  end.

(** The body of [for i := 0; i < batchSize; i++], [todo] being the number
    of iterations left ([batchSize - i]). *)
Fixpoint batchLoop (todo : nat) (i : Z) (topic : TopicName) (msgID : MessageID)
    (rdBuf : list byte) (properties : loc) (msgs : list Message)
    : M (list Message * option error) :=
  match todo with
  | O => ret (msgs, None)
  | S todo' =>
      let msgID := setBatchIndex msgID i in
      match ReadFull rdBuf 4 with
      | (inl err, _) => ret ([], Some err)
      | (inr buf32, rdBuf) =>
          let singleMetaSize := Uint32 buf32 in
          match ReadFull rdBuf singleMetaSize with
          | (inl err, _) => ret ([], Some err)
          | (inr singleMetaBuf, rdBuf) =>
              match Unmarshal singleMetaBuf with
              | inl err => ret ([], Some err)
              | inr singleMeta =>
                  (if 0 <? Z.of_nat (length (MetaProperties singleMeta))
                   then storeProperties properties (MetaProperties singleMeta)
                   else ret tt) ;;;
                  if GetPayloadSize singleMeta <? 0
                  then panic "makeslice: len out of range"
                  else
                    match ReadFull rdBuf (GetPayloadSize singleMeta) with
                    | (inl err, _) => ret ([], Some err)
                    | (inr singlePayload, rdBuf) =>
                        batchLoop todo' (i + 1) topic msgID rdBuf properties
                          (msgs ++ [mkMessage (TopicName_String topic) msgID
                                      singlePayload properties])
                    end
              end
          end
      end
  end.

Definition getIndividualMsgsFromBatch (topic : TopicName) (msgID : MessageID)
    (data : list byte) (properties : loc) : M (list Message * option error) :=
  v <~ mapLoad properties BatchHeader ;;
  match Atoi v with
  | inl _ => ret ([], None)
  | inr batchSize =>
      if batchSize <? 0 then panic "makeslice: cap out of range"
      else batchLoop (Z.to_nat batchSize) 0 topic msgID data properties []
  end.

(** ** [handleResp] *)

(** [for k := range resp.Header], over the keys in the order [ks]. *)
Fixpoint scanHeaders (ks : list string) (topic : TopicName) (resp : Response)
    (ID : MessageID) (payload : list byte) (properties : loc)
    : M (list Message * option error) :=
  match ks with
  | [] => ret ([NewMessage (TopicName_String topic) ID payload properties], None)
  | k :: ks' =>
      if String.eqb k PublishTimeHeader then
        let h := Header_Get (Header resp) k in
        (if negb (String.eqb h "") then mapStore properties "publish-time" h
         else ret tt) ;;;
        scanHeaders ks' topic resp ID payload properties
      else if String.eqb k BatchHeader then
        let h := Header_Get (Header resp) k in
        (if negb (String.eqb h "") then mapStore properties BatchHeader h
         else ret tt) ;;;
        getIndividualMsgsFromBatch topic ID payload properties
      else if Contains k PropertyPrefix then
        let key := TrimPrefix k PropertyPrefix in
        mapStore properties key (Header_Get (Header resp) k) ;;;
        scanHeaders ks' topic resp ID payload properties
      else scanHeaders ks' topic resp ID payload properties
  end.

Definition handleResp (topic : TopicName) (resp : Response) (ks : list string)
    : M (list Message * option error) :=
  let msgID := Header_Get (Header resp) "X-Pulsar-Message-ID" in
  match ParseMessageID msgID with
  | inl err => ret ([], Some err)
  | inr ID =>
      match Body resp with
      | inl err => ret ([], Some err)
      | inr payload =>
          properties <~ makeMap ;;
          scanHeaders ks topic resp ID payload properties
      end
  end.

(** ** [peekNthMessage] and [PeekMessages] *)

Definition logRequest (pos : Z) : M unit :=
  fun σ => (Done tt, State (heap σ) (sent σ ++ [pos])).

Definition peekNthMessage (topic : TopicName) (sName : string) (pos : Z)
    : M (list Message * option error) :=
  logRequest pos ;;;
  match roundTrip topic sName pos with
  | inl err => ret ([], Some err)
  | inr resp => handleResp topic resp (rangeOrder resp)
  end.

(** [for n > 0 { ... }]; the loop need not terminate, so it is run for at
    most [fuel] iterations: [None] is a loop still running. *)
Fixpoint peekLoop (fuel : nat) (topic : TopicName) (sName : string)
    (n count : Z) (msgs : list Message)
    : M (option (list Message * option error)) :=
  if 0 <? n then
    match fuel with
    | O => ret None
    | S fuel' =>
        r <~ peekNthMessage topic sName count ;;
        match r with
        | (_, Some err) => ret (Some ([], Some err))
        | (m, None) =>
            peekLoop fuel' topic sName (n - Z.of_nat (length m)) (count + 1)
              (msgs ++ m)
        end
    end
  else ret (Some (msgs, None)).

Definition PeekMessages (fuel : nat) (topic : TopicName) (sName : string) (n : Z)
    : M (option (list Message * option error)) :=
  peekLoop fuel topic sName n 1 [].

End Pipeline.

(** ** Concrete collaborators, to run the pipeline on explicit inputs *)

(** A decoder for the protobuf wire encoding of [SingleMessageMetadata]
    ([repeated KeyValue properties = 1], [required int32 payload_size = 3],
    other fields skipped) and of [KeyValue] ([required string key = 1],
    [required string value = 2]). It stands for [proto.Unmarshal] when a
    batch is given byte by byte. *)
Module pb.

Inductive wire : Type :=
  | Varint (v : Z)
  | Len (bs : list byte)
  | Fixed (bs : list byte).

(** Base-128 little-endian integer of at most [left] bytes. *)
Fixpoint varint (left : nat) (bs : list byte) (shift acc : Z) : option (Z * list byte) :=
  match left, bs with
  | S left', b :: bs' =>
      let acc := Z.lor acc (Z.shiftl (Z.land (byteZ b) 127) shift) in
      if byteZ b <? 128 then Some (acc mod 2 ^ 64, bs')
      else varint left' bs' (shift + 7) acc
  | _, _ => None
  end.

Definition chunk (n : Z) (bs : list byte) : option (list byte * list byte) :=
  if Z.of_nat (length bs) <? n then None
  else Some (take (Z.to_nat n) bs, drop (Z.to_nat n) bs).

(** The (field number, value) pairs of a message, in wire order. *)
Fixpoint fields (fuel : nat) (bs : list byte) : option (list (Z * wire)) :=
  match bs with
  | [] => Some []
  | _ =>
      match fuel with
      | O => None
      | S fuel' =>
          '(tag, bs) ← varint 10 bs 0 0;
          let num := Z.shiftr tag 3 in
          '(v, bs) ←
            match Z.land tag 7 with
            | 0 => '(v, bs) ← varint 10 bs 0 0; Some (Varint v, bs)
            | 1 => '(c, bs) ← chunk 8 bs; Some (Fixed c, bs)
            | 2 => '(n, bs) ← varint 10 bs 0 0;
                   '(c, bs) ← chunk n bs; Some (Len c, bs)
            | 5 => '(c, bs) ← chunk 4 bs; Some (Fixed c, bs)
            | _ => None
            end;
          rest ← fields fuel' bs;
          Some ((num, v) :: rest)
      end
  end.

Definition lastLen (num : Z) (fs : list (Z * wire)) : option string :=
  foldl (fun acc f => match f with
                      | (n, Len bs) => if n =? num then Some (string_of_list_byte bs) else acc
                      | _ => acc
                      end) None fs.

Definition lastVarint (num : Z) (fs : list (Z * wire)) : option Z :=
  foldl (fun acc f => match f with
                      | (n, Varint v) => if n =? num then Some v else acc
                      | _ => acc
                      end) None fs.

Definition int32 (v : Z) : Z :=
  let w := v mod 2 ^ 32 in if w <? 2 ^ 31 then w else w - 2 ^ 32.

Definition keyValue (bs : list byte) : option KeyValue :=
  fs ← fields (length bs) bs;
  k ← lastLen 1 fs;
  v ← lastLen 2 fs;
  Some (mkKeyValue (Some k) (Some v)).

Fixpoint properties (fs : list (Z * wire)) : option (list KeyValue) :=
  match fs with
  | [] => Some []
  | (1, Len bs) :: fs' => kv ← keyValue bs; kvs ← properties fs'; Some (kv :: kvs)
  | _ :: fs' => properties fs'
  end.

Definition Unmarshal (bs : list byte) : error + SingleMessageMetadata :=
  match
    fs ← fields (length bs) bs;
    kvs ← properties fs;
    size ← lastVarint 3 fs;
    Some (mkSingleMessageMetadata kvs (Some (int32 size)))
  with
  | Some m => inr m
  | None => inl (OtherError "proto: cannot parse SingleMessageMetadata")
  end.

End pb.

(** A message-id parser for the examples: [ledger:entry] in decimal. *)
Fixpoint splitColon (s : string) (cur : string) : list string :=
  match s with
  | EmptyString => [cur]
  | String ":" s' => cur :: splitColon s' ""
  | String a s' => splitColon s' (cur ++ String a "")%string
  end.

Definition colonParseMessageID (s : string) : error + MessageID :=
  match splitColon s "" with
  | [l; e] =>
      match Atoi l, Atoi e with
      | inr ledger, inr entry => inr (mkMessageID ledger entry 0)
      | _, _ => inl (OtherError "invalid message id string")
      end
  | _ => inl (OtherError "invalid message id string")
  end.

(** The keys of a header in the order of the map's own enumeration. *)
Definition keysOf (h : gmap string (list string)) : list string :=
  (map_to_list h).*1.

(** Collaborators for a broker that answers position [p] with [server p],
    the header being ranged over in the order [order]. *)
Definition demo (server : Z -> error + Response) (order : Response -> list string)
    : Collaborators :=
  {| TopicName := string;
     TopicName_String := fun t => t;
     ParseMessageID := colonParseMessageID;
     Unmarshal := pb.Unmarshal;
     roundTrip := fun _ _ pos => server pos;
     rangeOrder := order |}.

Definition emptyStore : state := State ∅ [].

(** ** A state-free reading of the batch format

    The loop of [getIndividualMsgsFromBatch] interleaves reads from the
    buffer with writes to the shared map. The functions below describe the
    reads alone; the loop is related to them by [batchLoop_done] and
    [batchLoop_fails]. *)

Inductive decoded : Type :=
  | Record_ (meta : SingleMessageMetadata) (payload rest : list byte)
  | Failed (err : error)
  | Crashed.

Definition kvSet (kv : KeyValue) : bool :=
  match Key kv, Value kv with
  | Some _, Some _ => true
  | _, _ => false
  end.

Section Records.
Context `{C : Collaborators}.

(** One record: length prefix, metadata, payload. *)
Definition decodeRecord (rd : list byte) : decoded :=
  match ReadFull rd 4 with
  | (inl err, _) => Failed err
  | (inr buf32, rd) =>
      match ReadFull rd (Uint32 buf32) with
      | (inl err, _) => Failed err
      | (inr metaBuf, rd) =>
          match Unmarshal metaBuf with
          | inl err => Failed err
          | inr meta =>
              if negb (forallb kvSet (MetaProperties meta)) then Crashed
              else if GetPayloadSize meta <? 0 then Crashed
              else match ReadFull rd (GetPayloadSize meta) with
                   | (inl err, _) => Failed err
                   | (inr payload, rd) => Record_ meta payload rd
                   end
          end
      end
  end.

(** The first [k] records and the bytes after them, when all [k] decode. *)
Fixpoint decodeRecords (k : nat) (rd : list byte)
    : option (list (SingleMessageMetadata * list byte) * list byte) :=
  match k with
  | O => Some ([], rd)
  | S k' =>
      match decodeRecord rd with
      | Record_ meta payload rest =>
          match decodeRecords k' rest with
          | Some (recs, rest') => Some ((meta, payload) :: recs, rest')
          | None => None
          end
      | _ => None
      end
  end.

End Records.

(** Writing a list of key/value pairs into a mapping, in order. *)
Definition overlay (m : gmap string string) (kvs : list KeyValue) : gmap string string :=
  foldl (fun m kv => match Key kv, Value kv with
                     | Some k, Some v => <[k := v]> m
                     | _, _ => m
                     end) m kvs.

(** Writing the properties of several sub-messages, in batch order. *)
Definition overlayAll (m : gmap string string) (metas : list SingleMessageMetadata)
    : gmap string string :=
  foldl (fun m meta => overlay m (MetaProperties meta)) m metas.

(** The Messages built from decoded records, numbered from [i]. *)
Fixpoint messagesOf (topic : string) (msgID : MessageID) (properties : loc) (i : Z)
    (recs : list (SingleMessageMetadata * list byte)) : list Message :=
  match recs with
  | [] => []
  | (_, payload) :: recs' =>
      mkMessage topic (setBatchIndex msgID i) payload properties
      :: messagesOf topic msgID properties (i + 1) recs'
  end.

(** The positions [count, count + 1, ...], [j] of them. *)
Definition positions (count : Z) (j : nat) : list Z :=
  (fun t => count + Z.of_nat t) <$> seq 0 j.

(** [peeks topic sName count j σ ms σ']: [j] consecutive requests, from
    position [count] on and starting in store [σ], each yield exactly one
    Message; [ms] lists them in request order and [σ'] is the final store. *)
Inductive peeks `{C : Collaborators} (topic : TopicName) (sName : string)
    : Z -> nat -> state -> list Message -> state -> Prop :=
  | peeks_nil count σ : peeks topic sName count O σ [] σ
  | peeks_cons count j σ m σ1 ms σ' :
      peekNthMessage topic sName count σ = (Done ([m], None), σ1) ->
      peeks topic sName (count + 1) j σ1 ms σ' ->
      peeks topic sName count (S j) σ (m :: ms) σ'.

(** ** Sample inputs *)

(** Two records: properties [a -> x], payload [A]; properties [b -> y],
    payload [B]. Each metadata is
    [0a 06 (0a 01 key 12 01 value) 18 01]: field 1 a KeyValue, field 3 the
    payload size 1. *)
Definition batch2 : list byte :=
  [x00; x00; x00; x0a;  x0a; x06; x0a; x01; x61; x12; x01; x78; x18; x01;  x41;
   x00; x00; x00; x0a;  x0a; x06; x0a; x01; x62; x12; x01; x79; x18; x01;  x42]%byte.


(** A store whose map [1] holds the given shared properties. *)
Definition storeWith (m : gmap string string) : state := State {[ 1%positive := m ]} [].

Definition shared2 : gmap string string :=
  {[ BatchHeader := "2"; "publish-time" := "1700000000" ]}.

Definition id79 : MessageID := mkMessageID 7 9 0.

Definition header (l : list (string * list string)) : gmap string (list string) :=
  list_to_map l.

(** A non-batched response. *)
Definition respSingle : Response :=
  mkResponse (header [("X-Pulsar-Message-Id", ["7:9"]);
                      ("X-Pulsar-Publish-Time", ["1700000000"])])
             (inr [x41; x42; x43]%byte).

(** A batched response of declared size 2. *)
Definition respBatch2 : Response :=
  mkResponse (header [("X-Pulsar-Message-Id", ["7:9"]);
                      ("X-Pulsar-Num-Batch-Message", ["2"])])
             (inr batch2).

(** Batched responses of declared size 0 and -1. *)
Definition respBatch0 : Response :=
  mkResponse (header [("X-Pulsar-Message-Id", ["7:9"]);
                      ("X-Pulsar-Num-Batch-Message", ["0"])])
             (inr []).

Definition respBatchNeg : Response :=
  mkResponse (header [("X-Pulsar-Message-Id", ["7:9"]);
                      ("X-Pulsar-Num-Batch-Message", ["-1"])])
             (inr []).

(** The custom property [foo: bar], under the header name as the constant
    [PropertyPrefix] spells it, and under the canonical form in which
    [net/http] stores the names of the headers it receives. *)
Definition respFooLiteral : Response :=
  mkResponse (header [("X-Pulsar-Message-Id", ["7:9"]);
                      ("X-Pulsar-PROPERTY-foo", ["bar"])])
             (inr [x41]%byte).

Definition respFooCanonical : Response :=
  mkResponse (header [("X-Pulsar-Message-Id", ["7:9"]);
                      ("X-Pulsar-Property-Foo", ["bar"])])
             (inr [x41]%byte).

(** A batched response that also carries the custom property. *)
Definition respFooBatch : Response :=
  mkResponse (header [("X-Pulsar-Message-Id", ["7:9"]);
                      ("X-Pulsar-Num-Batch-Message", ["2"]);
                      ("X-Pulsar-PROPERTY-foo", ["bar"])])
             (inr batch2).

Definition always (r : Response) : Z -> error + Response := fun _ => inr r.

(** Brokers that answer every position alike: with one plain message, with
    an empty batch, with the batch of two. *)
Definition brokerSingle : Collaborators :=
  demo (always respSingle) (fun r => keysOf (Header r)).

Definition brokerBatch0 : Collaborators :=
  demo (always respBatch0) (fun r => keysOf (Header r)).

Definition brokerBatch2 : Collaborators :=
  demo (always respBatch2) (fun r => keysOf (Header r)).

(** The metadata of the two records of [batch2]. *)
Definition metaA : SingleMessageMetadata :=
  mkSingleMessageMetadata [mkKeyValue (Some "a") (Some "x")] (Some 1).

Definition metaB : SingleMessageMetadata :=
  mkSingleMessageMetadata [mkKeyValue (Some "b") (Some "y")] (Some 1).

(** ** A state-free reading of the header scan

    What the visit of one key writes to the properties, and the properties
    after the visit of a list of keys. The scan itself, [scanHeaders], is
    related to them by [scanHeaders_plain] and [scanHeaders_batched]. *)

Definition headerEntry (h : gmap string (list string)) (k : string)
    : option (string * string) :=
  if String.eqb k PublishTimeHeader then
    let v := Header_Get h k in
    if negb (String.eqb v "") then Some ("publish-time", v) else None
  else if String.eqb k BatchHeader then
    let v := Header_Get h k in
    if negb (String.eqb v "") then Some (BatchHeader, v) else None
  else if Contains k PropertyPrefix then
    Some (TrimPrefix k PropertyPrefix, Header_Get h k)
  else None.

Definition applyEntry (h : gmap string (list string)) (m : gmap string string)
    (k : string) : gmap string string :=
  match headerEntry h k with
  | Some (key, v) => <[key := v]> m
  | None => m
  end.

Definition scanProps (h : gmap string (list string)) (ks : list string)
    (m : gmap string string) : gmap string string :=
  foldl (applyEntry h) m ks.

(** ** Framed records

    A record as it lies in a batch body: the four bytes of the length
    prefix, the metadata bytes, what they decode to, and the payload. *)

Record frame : Type := mkFrame {
  framePrefix : list byte;
  frameMetaBytes : list byte;
  frameMeta : SingleMessageMetadata;
  framePayload : list byte
}.

Definition frameBytes (f : frame) : list byte :=
  framePrefix f ++ frameMetaBytes f ++ framePayload f.

Definition wellFramed `{C : Collaborators} (f : frame) : Prop :=
  length (framePrefix f) = 4%nat
  /\ Uint32 (framePrefix f) = Z.of_nat (length (frameMetaBytes f))
  /\ Unmarshal (frameMetaBytes f) = inr (frameMeta f)
  /\ forallb kvSet (MetaProperties (frameMeta f)) = true
  /\ GetPayloadSize (frameMeta f) = Z.of_nat (length (framePayload f)).

(** A computation that writes to no map but the one at [l], and leaves it
    allocated. *)
Definition confined {A} (l : loc) (m : M A) : Prop :=
  forall σ o σ', m σ = (o, σ') ->
    (forall l', l' <> l -> heap σ' !! l' = heap σ !! l')
    /\ (is_Some (heap σ !! l) -> is_Some (heap σ' !! l)).

(** ** The iterations of the peek loop

    [progress topic sName count n σ j ms n' σ']: from position [count], with
    [n] Messages still wanted and store [σ], the loop runs [j] iterations
    whose requests all succeed; together they return [ms] and leave [n']
    wanted and the store [σ']. *)
Inductive progress `{C : Collaborators} (topic : TopicName) (sName : string)
    : Z -> Z -> state -> nat -> list Message -> Z -> state -> Prop :=
  | progress_nil count n σ : progress topic sName count n σ O [] n σ
  | progress_cons count n σ m σ1 j ms n' σ' :
      0 < n ->
      peekNthMessage topic sName count σ = (Done (m, None), σ1) ->
      progress topic sName (count + 1) (n - Z.of_nat (length m)) σ1 j ms n' σ' ->
      progress topic sName count n σ (S j) (m ++ ms) n' σ'.

(** ** More sample inputs *)

(** The two records of [batch2] as frames. *)
Definition frameA : frame :=
  mkFrame [x00; x00; x00; x0a]%byte
          [x0a; x06; x0a; x01; x61; x12; x01; x78; x18; x01]%byte
          metaA [x41]%byte.

Definition frameB : frame :=
  mkFrame [x00; x00; x00; x0a]%byte
          [x0a; x06; x0a; x01; x62; x12; x01; x79; x18; x01]%byte
          metaB [x42]%byte.

(** A record whose metadata declare the payload size -1 (field 3, the
    ten-byte varint of -1) and no property. *)
Definition negativeSizeMeta : list byte :=
  [x18; xff; xff; xff; xff; xff; xff; xff; xff; xff; x01]%byte.

Definition negativeSizeRecord : list byte :=
  [x00; x00; x00; x0b]%byte ++ negativeSizeMeta.

(** A batched response whose batch-size header is not a number. *)
Definition respBatchBad : Response :=
  mkResponse (header [("X-Pulsar-Message-Id", ["7:9"]);
                      ("X-Pulsar-Num-Batch-Message", ["two"])])
             (inr batch2).

(** A response whose message id does not parse, and one whose body cannot
    be read. *)
Definition respNoID : Response :=
  mkResponse (header [("X-Pulsar-Publish-Time", ["1700000000"])])
             (inr [x41]%byte).

Definition respBadBody : Response :=
  mkResponse (header [("X-Pulsar-Message-Id", ["7:9"])])
             (inl ErrUnexpectedEOF).

(** A broker that answers position 1 with the batch of two and every other
    position with one plain message, and one that fails from position 3 on. *)
Definition brokerMixed : Collaborators :=
  demo (fun pos => if pos =? 1 then inr respBatch2 else inr respSingle)
       (fun r => keysOf (Header r)).

Definition brokerFailing : Collaborators :=
  demo (fun pos => if pos <? 3 then inr respSingle
                   else inl (OtherError "503 Service Unavailable"))
       (fun r => keysOf (Header r)).

(** * Properties *)

(** ** Sanity checks of the library models *)

Example Atoi_3 : Atoi "3" = inr 3. Proof. reflexivity. Qed.
Example Atoi_neg : Atoi "-1" = inr (-1). Proof. reflexivity. Qed.
Example Atoi_bad : Atoi "abc" = inl (NumError "abc"). Proof. reflexivity. Qed.
Example Atoi_empty : Atoi "" = inl (NumError ""). Proof. reflexivity. Qed.
Example Atoi_big : Atoi "9223372036854775808" = inl (NumError "9223372036854775808").
Proof. reflexivity. Qed.
Example canon_prop :
  CanonicalMIMEHeaderKey "X-Pulsar-PROPERTY-foo" = "X-Pulsar-Property-Foo".
Proof. reflexivity. Qed.
Example canon_id : CanonicalMIMEHeaderKey "X-Pulsar-Message-ID" = "X-Pulsar-Message-Id".
Proof. reflexivity. Qed.
Example Uint32_ex : Uint32 [x00; x00; x01; x02] = 258. Proof. reflexivity. Qed.

Example ReadFull_short : ReadFull [x01; x02]%byte 4 = (inl ErrUnexpectedEOF, []).
Proof. reflexivity. Qed.
Example ReadFull_eof : ReadFull [] 4 = (inl EOF, []).
Proof. reflexivity. Qed.
Example ReadFull_zero : ReadFull [] 0 = (inr [], []).
Proof. reflexivity. Qed.
Example TrimPrefix_foo : TrimPrefix "X-Pulsar-PROPERTY-foo" PropertyPrefix = "foo".
Proof. reflexivity. Qed.
Example Contains_canonical : Contains "X-Pulsar-Property-Foo" PropertyPrefix = false.
Proof. reflexivity. Qed.
Example Unmarshal_ax :
  pb.Unmarshal [x0a; x06; x0a; x01; x61; x12; x01; x78; x18; x01]%byte
  = inr (mkSingleMessageMetadata [mkKeyValue (Some "a") (Some "x")] (Some 1)).
Proof. reflexivity. Qed.

(** ** The store *)

Lemma state_eta σ : State (heap σ) (sent σ) = σ.
Proof. by destruct σ. Qed.

Lemma mapStore_some l k v σ m :
  heap σ !! l = Some m ->
  mapStore l k v σ = (Done tt, State (<[l := <[k := v]> m]> (heap σ)) (sent σ)).
Proof. intros H. unfold mapStore. by rewrite H. Qed.

Lemma mapIndex_allocated σ l key k :
  Atoi (mapIndex σ l key) = inr k -> is_Some (heap σ !! l).
Proof.
  unfold mapIndex. destruct (heap σ !! l); [eauto | discriminate].
Qed.

Lemma silent_ret {A} (a : A) : silent (ret a).
Proof. intros σ o σ' [= _ <-]. done. Qed.

Lemma silent_panic {A} msg : silent (@panic A msg).
Proof. intros σ o σ' [= _ <-]. done. Qed.

Lemma silent_bind {A B} (m : M A) (k : A -> M B) :
  silent m -> (forall a, silent (k a)) -> silent (bind m k).
Proof.
  intros Hm Hk σ o σ'. unfold bind.
  destruct (m σ) as [[a | msg] σ1] eqn:E; intros H.
  - rewrite (Hk a _ _ _ H). eauto.
  - injection H as <- <-. eauto.
Qed.

Lemma silent_mapStore l k v : silent (mapStore l k v).
Proof.
  intros σ o σ'. unfold mapStore.
  destruct (heap σ !! l); intros [= _ <-]; done.
Qed.

Lemma silent_mapLoad l k : silent (mapLoad l k).
Proof. intros σ o σ' [= _ <-]. done. Qed.

Lemma silent_makeMap : silent makeMap.
Proof. intros σ o σ' [= _ <-]. done. Qed.

Lemma silent_if {A} (b : bool) (m1 m2 : M A) :
  silent m1 -> silent m2 -> silent (if b then m1 else m2).
Proof. by destruct b. Qed.

Create HintDb silent.
#[export] Hint Resolve silent_ret silent_panic silent_bind silent_mapStore
  silent_mapLoad silent_makeMap silent_if : silent.

(** ** The batch loop *)

Section BatchLoop.
Context `{C : Collaborators}.

Lemma setBatchIndex_twice id i j :
  setBatchIndex (setBatchIndex id i) j = setBatchIndex id j.
Proof. reflexivity. Qed.

Lemma overlay_snoc m kvs k v :
  overlay m (kvs ++ [mkKeyValue (Some k) (Some v)]) = <[k := v]> (overlay m kvs).
Proof. unfold overlay. by rewrite foldl_app. Qed.

(** The property loop writes [overlay] when it runs to its end, and it runs
    to its end exactly when no key or value is nil. *)
Lemma storeProperties_run l kvs σ m :
  heap σ !! l = Some m ->
  if forallb kvSet kvs
  then storeProperties l kvs σ
       = (Done tt, State (<[l := overlay m kvs]> (heap σ)) (sent σ))
  else exists msg σ', storeProperties l kvs σ = (Panic msg, σ').
Proof.
  revert σ m. induction kvs as [| [[k |] [v |]] kvs IH]; intros σ m Hl; simpl.
  - unfold ret. by rewrite insert_id, state_eta.
  - unfold bind. rewrite (mapStore_some _ _ _ _ _ Hl).
    specialize (IH (State (<[l := <[k := v]> m]> (heap σ)) (sent σ)) (<[k := v]> m)).
    simpl in IH. rewrite lookup_insert_eq in IH. specialize (IH eq_refl).
    destruct (forallb kvSet kvs).
    + rewrite IH. by rewrite insert_insert_eq.
    + exact IH.
  - unfold panic. eauto.
  - unfold panic. eauto.
  - unfold panic. eauto.
Qed.

(** One iteration of the loop, read off [decodeRecord]. *)
Lemma batchLoop_step todo i topic msgID rd props msgs σ m :
  heap σ !! props = Some m ->
  match decodeRecord rd with
  | Record_ meta payload rest =>
      batchLoop (S todo) i topic msgID rd props msgs σ
      = batchLoop todo (i + 1) topic (setBatchIndex msgID i) rest props
          (msgs ++ [mkMessage (TopicName_String topic) (setBatchIndex msgID i)
                      payload props])
          (State (<[props := overlay m (MetaProperties meta)]> (heap σ)) (sent σ))
  | Failed err =>
      exists σ', batchLoop (S todo) i topic msgID rd props msgs σ
                 = (Done ([], Some err), σ') /\ sent σ' = sent σ
  | Crashed =>
      exists msg σ', batchLoop (S todo) i topic msgID rd props msgs σ
                     = (Panic msg, σ')
  end.
Proof.
  intros Hl. unfold decodeRecord.
  remember (batchLoop (S todo) i topic msgID rd props msgs σ) as run eqn:E.
  simpl in E.
  destruct (ReadFull rd 4) as [[err | buf32] rd1]; [by eexists |].
  destruct (ReadFull rd1 (Uint32 buf32)) as [[err | metaBuf] rd2]; [by eexists |].
  destruct (Unmarshal metaBuf) as [err | meta]; [by eexists |].
  pose proof (storeProperties_run props (MetaProperties meta) σ m Hl) as Hs.
  assert (Hif : (if 0 <? Z.of_nat (length (MetaProperties meta))
                 then storeProperties props (MetaProperties meta)
                 else ret tt) σ
                = storeProperties props (MetaProperties meta) σ).
  { destruct (MetaProperties meta); reflexivity. }
  unfold bind in E. rewrite Hif in E.
  destruct (forallb kvSet (MetaProperties meta)); cbv iota in Hs; simpl.
  - rewrite Hs in E. destruct (GetPayloadSize meta <? 0); [subst run; unfold panic; eauto |].
    destruct (ReadFull rd2 (GetPayloadSize meta)) as [[err | payload] rd3];
      subst run; [| reflexivity].
    eexists. split; [reflexivity | done].
  - destruct Hs as (msg & σ' & Hs). rewrite Hs in E. eauto.
Qed.

Lemma messagesOf_length topic msgID props i recs :
  length (messagesOf topic msgID props i recs) = length recs.
Proof.
  revert i. induction recs as [| [meta p] recs IH]; intros i; simpl; [done |].
  by rewrite IH.
Qed.

Lemma messagesOf_setBatchIndex topic msgID props i0 recs : forall i,
  messagesOf topic (setBatchIndex msgID i0) props i recs
  = messagesOf topic msgID props i recs.
Proof.
  induction recs as [| [meta p] recs IH]; intros i; simpl; [done |].
  by rewrite IH, setBatchIndex_twice.
Qed.

Lemma messagesOf_lookup topic msgID props recs : forall i (j : nat) msg,
  messagesOf topic msgID props i recs !! j = Some msg ->
  MsgID msg = setBatchIndex msgID (i + Z.of_nat j) /\ Properties msg = props /\
  Topic msg = topic /\ exists meta, recs !! j = Some (meta, Payload msg).
Proof.
  induction recs as [| [meta p] recs IH]; intros i j msg; simpl; [done |].
  destruct j as [| j]; simpl.
  - intros [= <-]. simpl. rewrite Z.add_0_r. eauto.
  - intros H. apply IH in H as (-> & ? & ? & ?).
    repeat split; try done. f_equal. lia.
Qed.

Lemma decodeRecords_length k rd recs rest :
  decodeRecords k rd = Some (recs, rest) -> length recs = k.
Proof.
  revert rd recs rest. induction k as [| k IH]; intros rd recs rest; simpl.
  - by intros [= <- _].
  - destruct (decodeRecord rd) as [meta p rd' | |]; try done.
    destruct (decodeRecords k rd') as [[recs' rest'] |] eqn:E; try done.
    intros [= <- _]. simpl. f_equal. eauto.
Qed.

(** A loop that ends without error has decoded [todo] records, returned
    their Messages after [msgs], and left in the shared map the
    properties of all of them. *)
Lemma batchLoop_done todo : forall i topic msgID rd props msgs σ m out σ',
  heap σ !! props = Some m ->
  batchLoop todo i topic msgID rd props msgs σ = (Done (out, None), σ') ->
  exists recs rest,
    decodeRecords todo rd = Some (recs, rest) /\
    out = (msgs ++ messagesOf (TopicName_String topic) msgID props i recs)%list /\
    σ' = State (<[props := overlayAll m recs.*1]> (heap σ)) (sent σ).
Proof.
  induction todo as [| todo IH]; intros i topic msgID rd props msgs σ m out σ' Hl H.
  - simpl in H. injection H as <- <-. exists [], rd. simpl.
    by rewrite app_nil_r, insert_id, state_eta.
  - pose proof (batchLoop_step todo i topic msgID rd props msgs σ m Hl) as Hstep.
    simpl decodeRecords.
    destruct (decodeRecord rd) as [meta p rd' | err |].
    + rewrite Hstep in H. eapply IH in H; [| simpl; apply lookup_insert_eq].
      destruct H as (recs & rest & -> & -> & ->).
      exists ((meta, p) :: recs), rest. simpl.
      rewrite <- app_assoc, insert_insert_eq, messagesOf_setBatchIndex. done.
    + destruct Hstep as (? & Hstep & _). congruence.
    + destruct Hstep as (? & ? & Hstep). congruence.
Qed.



Lemma silent_storeProperties l kvs : silent (storeProperties l kvs).
Proof.
  induction kvs as [| [[k |] [v |]] kvs IH]; simpl; eauto with silent.
Qed.

Lemma silent_batchLoop todo : forall i topic msgID rd props msgs,
  silent (batchLoop todo i topic msgID rd props msgs).
Proof.
  induction todo as [| todo IH]; intros; simpl; [eauto with silent |].
  destruct (ReadFull rd 4) as [[e | buf32] rd1]; [eauto with silent |].
  destruct (ReadFull rd1 (Uint32 buf32)) as [[e | metaBuf] rd2]; [eauto with silent |].
  destruct (Unmarshal metaBuf) as [e | meta]; [eauto with silent |].
  apply silent_bind; [apply silent_if; auto using silent_storeProperties with silent |].
  intros _. apply silent_if; [eauto with silent |].
  destruct (ReadFull rd2 (GetPayloadSize meta)) as [[e | payload] rd3];
    eauto with silent.
Qed.

Lemma silent_getIndividualMsgsFromBatch topic msgID data props :
  silent (getIndividualMsgsFromBatch topic msgID data props).
Proof.
  unfold getIndividualMsgsFromBatch. apply silent_bind; [eauto with silent |].
  intros v. destruct (Atoi v); [eauto with silent |].
  apply silent_if; auto using silent_batchLoop with silent.
Qed.

(** The unpacker, once the declared size is known. *)
Lemma getIndividualMsgsFromBatch_size topic msgID data props σ k :
  Atoi (mapIndex σ props BatchHeader) = inr k ->
  getIndividualMsgsFromBatch topic msgID data props σ
  = if k <? 0 then (Panic "makeslice: cap out of range", σ)
    else batchLoop (Z.to_nat k) 0 topic msgID data props [] σ.
Proof.
  intros Hk. unfold getIndividualMsgsFromBatch, bind, mapLoad. rewrite Hk.
  by destruct (k <? 0).
Qed.

End BatchLoop.

(** ** The response interpreter *)

Section HandleResp.
Context `{C : Collaborators}.

Lemma range_order_elem h ks k : range_order h ks -> k ∈ ks <-> is_Some (h !! k).
Proof.
  unfold range_order. intros ->. rewrite list_elem_of_fmap. split.
  - intros [[k' v] [-> Hin]]. apply elem_of_map_to_list in Hin. eauto.
  - intros [v Hv]. exists (k, v). split; [done |]. by apply elem_of_map_to_list.
Qed.

(** With no batch-size key among those visited, the scan runs to the end
    of the header and builds one Message from the full body. *)
Lemma scanHeaders_not_batched ks topic resp ID payload props : forall σ,
  BatchHeader ∉ ks ->
  is_Some (heap σ !! props) ->
  exists σ',
    scanHeaders ks topic resp ID payload props σ
    = (Done ([NewMessage (TopicName_String topic) ID payload props], None), σ')
    /\ sent σ' = sent σ /\ is_Some (heap σ' !! props).
Proof.
  induction ks as [| k ks IH]; intros σ Hno Hl; simpl.
  - eauto.
  - apply not_elem_of_cons in Hno as [Hne Hno].
    assert (Hstore : forall key v, exists σ1,
               mapStore props key v σ = (Done tt, σ1) /\ sent σ1 = sent σ
               /\ is_Some (heap σ1 !! props)).
    { intros key v. destruct Hl as [m Hm]. rewrite (mapStore_some _ _ _ _ _ Hm).
      eexists. repeat split. simpl. rewrite lookup_insert_eq. eauto. }
    destruct (String.eqb_spec k PublishTimeHeader) as [-> | _].
    { unfold bind.
      destruct (negb (String.eqb (Header_Get (Header resp) PublishTimeHeader) "")).
      - destruct (Hstore "publish-time" (Header_Get (Header resp) PublishTimeHeader))
          as (σ1 & -> & Hs & Hl1).
        destruct (IH σ1 Hno Hl1) as (σ' & -> & Hs' & Hl'). rewrite <- Hs. eauto.
      - apply IH; done. }
    destruct (String.eqb_spec k BatchHeader) as [-> | _]; [done |].
    destruct (Contains k PropertyPrefix); [| by apply IH].
    unfold bind.
    destruct (Hstore (TrimPrefix k PropertyPrefix) (Header_Get (Header resp) k))
      as (σ1 & -> & Hs & Hl1).
    destruct (IH σ1 Hno Hl1) as (σ' & -> & Hs' & Hl'). rewrite <- Hs. eauto.
Qed.

Lemma makeMap_allocated σ l σ1 :
  makeMap σ = (Done l, σ1) -> heap σ1 !! l = Some ∅ /\ heap σ !! l = None.
Proof.
  intros [= <- <-]. simpl. split; [apply lookup_insert_eq |].
  apply not_elem_of_dom, is_fresh.
Qed.

Lemma handleResp_not_batched topic resp ks ID payload σ :
  ParseMessageID (Header_Get (Header resp) "X-Pulsar-Message-ID") = inr ID ->
  Body resp = inr payload ->
  BatchHeader ∉ ks ->
  exists props σ',
    handleResp topic resp ks σ
    = (Done ([NewMessage (TopicName_String topic) ID payload props], None), σ')
    /\ sent σ' = sent σ.
Proof.
  intros HID Hbody Hno. unfold handleResp. rewrite HID, Hbody. unfold bind.
  destruct (makeMap σ) as [[l | ?] σ1] eqn:E; [| discriminate].
  pose proof (makeMap_allocated _ _ _ E) as [Hl _].
  destruct (scanHeaders_not_batched ks topic resp ID payload l σ1 Hno)
    as (σ' & -> & Hs & _); [eauto |].
  exists l, σ'. split; [done |]. rewrite Hs. by injection E as _ <-.
Qed.

Lemma silent_scanHeaders ks topic resp ID payload props :
  silent (scanHeaders ks topic resp ID payload props).
Proof.
  induction ks as [| k ks IH]; simpl; [eauto with silent |].
  repeat apply silent_if;
    eauto using silent_getIndividualMsgsFromBatch with silent.
Qed.

Lemma silent_handleResp topic resp ks : silent (handleResp topic resp ks).
Proof.
  unfold handleResp.
  destruct (ParseMessageID _); [eauto with silent |].
  destruct (Body resp); eauto using silent_scanHeaders with silent.
Qed.

(** ** The peek loop *)

Lemma peekNthMessage_sent topic sName pos σ o σ' :
  peekNthMessage topic sName pos σ = (o, σ') -> sent σ' = (sent σ ++ [pos])%list.
Proof.
  unfold peekNthMessage, bind, logRequest. intros H.
  destruct (roundTrip topic sName pos).
  - by injection H as _ <-.
  - apply silent_handleResp in H. done.
Qed.

Lemma positions_S count j : positions count (S j) = count :: positions (count + 1) j.
Proof.
  unfold positions. simpl. f_equal; [lia |].
  rewrite <- fmap_S_seq, <- list_fmap_compose. apply list_fmap_ext.
  intros _ t _. simpl. lia.
Qed.

Lemma positions_1 count : positions count 1 = [count].
Proof. unfold positions. simpl. f_equal. lia. Qed.

Lemma peeks_sent topic sName count j σ ms σ' :
  peeks topic sName count j σ ms σ' ->
  sent σ' = (sent σ ++ positions count j)%list /\ length ms = j.
Proof.
  induction 1 as [count σ | count j σ m σ1 ms σ' Hpeek _ [IHs IHl]].
  - by rewrite app_nil_r.
  - apply peekNthMessage_sent in Hpeek. rewrite positions_S, IHs, Hpeek.
    rewrite <- app_assoc. simpl. by rewrite IHl.
Qed.

Lemma peeks_exist topic sName j : forall count σ,
  (forall p, count <= p < count + Z.of_nat j ->
     forall σ1, exists m σ2, peekNthMessage topic sName p σ1 = (Done ([m], None), σ2)) ->
  exists ms σ', peeks topic sName count j σ ms σ'.
Proof.
  induction j as [| j IH]; intros count σ Hone.
  - eauto using peeks_nil.
  - destruct (Hone count ltac:(lia) σ) as (m & σ1 & Hm).
    destruct (IH (count + 1) σ1) as (ms & σ' & Hms).
    { intros p Hp. apply Hone. lia. }
    eauto using peeks_cons.
Qed.

(** Positions that each yield one Message satisfy a request for as many
    Messages in as many iterations. *)
Lemma peekLoop_singles topic sName count j σ ms σ' :
  peeks topic sName count j σ ms σ' ->
  forall fuel msgs, (j <= fuel)%nat ->
    peekLoop fuel topic sName (Z.of_nat j) count msgs σ
    = (Done (Some ((msgs ++ ms)%list, None)), σ').
Proof.
  induction 1 as [count σ | count j σ m σ1 ms σ' Hpeek _ IH]; intros fuel msgs Hfuel.
  - destruct fuel; simpl; by rewrite app_nil_r.
  - destruct fuel as [| fuel]; [lia |].
    change (peekLoop (S fuel) topic sName (Z.of_nat (S j)) count msgs σ)
      with ((if 0 <? Z.of_nat (S j)
             then r <~ peekNthMessage topic sName count ;;
                  match r with
                  | (_, Some err) => ret (Some ([], Some err))
                  | (m, None) =>
                      peekLoop fuel topic sName (Z.of_nat (S j) - Z.of_nat (length m))
                        (count + 1) (msgs ++ m)
                  end
             else ret (Some (msgs, None))) σ).
    destruct (Z.ltb_spec 0 (Z.of_nat (S j))); [| lia].
    unfold bind. rewrite Hpeek. simpl length.
    replace (Z.of_nat (S j) - Z.of_nat 1) with (Z.of_nat j) by lia.
    rewrite IH by lia. by rewrite <- app_assoc.
Qed.

(** When no request comes back empty-handed, the loop issues at most
    [n] requests, at consecutive positions. *)
Lemma peekLoop_requests topic sName :
  (forall pos σ msgs σ',
     peekNthMessage topic sName pos σ = (Done (msgs, None), σ') -> msgs <> []) ->
  forall fuel n count msgs σ o σ',
    peekLoop fuel topic sName n count msgs σ = (o, σ') ->
    exists j : nat, sent σ' = (sent σ ++ positions count j)%list
                    /\ Z.of_nat j <= Z.max 0 n.
Proof.
  intros Hne. induction fuel as [| fuel IH]; intros n count msgs σ o σ' H; simpl in H.
  - exists O. unfold positions. simpl. rewrite app_nil_r.
    destruct (0 <? n); injection H as _ <-; split; (done || lia).
  - destruct (Z.ltb_spec 0 n) as [Hn | Hn].
    2:{ exists O. injection H as _ <-. unfold positions. simpl.
        rewrite app_nil_r. split; [done | lia]. }
    unfold bind in H.
    destruct (peekNthMessage topic sName count σ) as [[[m [err |]] | msg] σ1] eqn:E;
      pose proof (peekNthMessage_sent _ _ _ _ _ _ E) as Hs.
    + exists 1%nat. injection H as _ <-. rewrite Hs, positions_1. split; [done | lia].
    + apply Hne in E as Hm. apply IH in H as (j & Hj & Hle).
      exists (S j). rewrite positions_S, Hj, Hs, <- app_assoc. split; [done |].
      destruct m; [done |]. simpl length in Hle. lia.
    + exists 1%nat. injection H as _ <-. rewrite Hs, positions_1. split; [done | lia].
Qed.

End HandleResp.

(** * The claims *)

(** ** Batches *)

(** C1. A batch of declared size [k] that decodes without error yields
    exactly [k] Messages; the [i]-th has [BatchIndex] [i], and all carry the
    ledger and entry of the shared message id. *)
Theorem C1_batch_count_and_indices `{C : Collaborators}
    topic msgID data props σ k msgs σ' :
  Atoi (mapIndex σ props BatchHeader) = inr k ->
  getIndividualMsgsFromBatch topic msgID data props σ = (Done (msgs, None), σ') ->
  Z.of_nat (length msgs) = k /\
  forall (i : nat) m, msgs !! i = Some m ->
    BatchIndex (MsgID m) = Z.of_nat i /\
    LedgerID (MsgID m) = LedgerID msgID /\
    EntryID (MsgID m) = EntryID msgID.
Proof.
  intros Hk Hrun. rewrite (getIndividualMsgsFromBatch_size _ _ _ _ _ _ Hk) in Hrun.
  destruct (Z.ltb_spec k 0) as [Hneg | Hpos]; [discriminate |].
  destruct (mapIndex_allocated _ _ _ _ Hk) as [shared Hl].
  destruct (batchLoop_done _ _ _ _ _ _ _ _ _ _ _ Hl Hrun) as (recs & rest & Hrecs & -> & _).
  simpl. split.
  - rewrite messagesOf_length, (decodeRecords_length _ _ _ _ Hrecs). lia.
  - intros i m Hm. apply messagesOf_lookup in Hm as (-> & _). simpl.
    split; [lia | done].
Qed.

Lemma C1_witness :
  exists msgs σ',
    @getIndividualMsgsFromBatch brokerSingle "t" id79 batch2 1%positive
      (storeWith shared2) = (Done (msgs, None), σ')
    /\ Z.of_nat (length msgs) = 2
    /\ forall (i : nat) m, msgs !! i = Some m ->
         BatchIndex (MsgID m) = Z.of_nat i /\
         LedgerID (MsgID m) = 7 /\ EntryID (MsgID m) = 9.
Proof.
  eexists _, _. split; [vm_compute; reflexivity |].
  eapply (@C1_batch_count_and_indices brokerSingle "t" id79 batch2 1%positive
            (storeWith shared2) 2); vm_compute; reflexivity.
Defined.

(** C2, as stated, fails. In [batch2] only the second record declares
    [b -> y], yet the Properties of the first Message hold it: they are not
    the shared properties overlaid by the first record's own properties. *)
Lemma C2_counterexample :
  exists msgs σ' m0,
    @getIndividualMsgsFromBatch brokerSingle "t" id79 batch2 1%positive
      (storeWith shared2) = (Done (msgs, None), σ')
    /\ @decodeRecords brokerSingle 2 batch2
       = Some ([(metaA, [x41]%byte); (metaB, [x42]%byte)], [])
    /\ msgs !! 0%nat = Some m0
    /\ deref σ' (Properties m0) !! "b" = Some "y"
    /\ overlay shared2 (MetaProperties metaA) !! "b" = None
    /\ deref σ' (Properties m0) <> overlay shared2 (MetaProperties metaA).
Proof.
  eexists _, _, _. split; [vm_compute; reflexivity |].
  split; [vm_compute; reflexivity |].
  split; [reflexivity |].
  split; [vm_compute; reflexivity |].
  split; [vm_compute; reflexivity |].
  intros Heq. apply (f_equal (fun m : gmap string string => m !! "b")) in Heq.
  vm_compute in Heq. discriminate.
Qed.

(** C2, amended. The Properties of every Message of a batch are the shared
    properties overlaid by the declared properties of all the sub-messages
    of the batch, in batch order, the last write to a key winning. *)
Theorem C2_properties_accumulate `{C : Collaborators}
    topic msgID data props σ shared k msgs σ' :
  heap σ !! props = Some shared ->
  Atoi (mapIndex σ props BatchHeader) = inr k ->
  getIndividualMsgsFromBatch topic msgID data props σ = (Done (msgs, None), σ') ->
  exists recs rest,
    decodeRecords (Z.to_nat k) data = Some (recs, rest) /\
    forall (i : nat) m, msgs !! i = Some m ->
      deref σ' (Properties m) = overlayAll shared recs.*1.
Proof.
  intros Hl Hk Hrun. rewrite (getIndividualMsgsFromBatch_size _ _ _ _ _ _ Hk) in Hrun.
  destruct (k <? 0); [discriminate |].
  destruct (batchLoop_done _ _ _ _ _ _ _ _ _ _ _ Hl Hrun) as (recs & rest & Hrecs & -> & ->).
  exists recs, rest. split; [done |].
  intros i m Hm. apply messagesOf_lookup in Hm as (_ & -> & _).
  unfold deref. simpl. by rewrite lookup_insert_eq.
Qed.

Lemma C2_witness :
  exists msgs σ',
    @getIndividualMsgsFromBatch brokerSingle "t" id79 batch2 1%positive
      (storeWith shared2) = (Done (msgs, None), σ')
    /\ exists recs rest,
         @decodeRecords brokerSingle (Z.to_nat 2) batch2 = Some (recs, rest) /\
         forall (i : nat) m, msgs !! i = Some m ->
           deref σ' (Properties m) = overlayAll shared2 recs.*1.
Proof.
  eexists _, _. split; [vm_compute; reflexivity |].
  eapply (@C2_properties_accumulate brokerSingle "t" id79 batch2 1%positive
            (storeWith shared2) shared2 2); vm_compute; reflexivity.
Defined.

(** C9. All the Messages of a batch that decodes without error hold the
    same map, hence equal Properties. *)
Theorem C9_batch_properties_equal `{C : Collaborators}
    topic msgID data props σ k msgs σ' :
  Atoi (mapIndex σ props BatchHeader) = inr k ->
  getIndividualMsgsFromBatch topic msgID data props σ = (Done (msgs, None), σ') ->
  forall (i j : nat) mi mj, msgs !! i = Some mi -> msgs !! j = Some mj ->
    Properties mi = Properties mj /\
    deref σ' (Properties mi) = deref σ' (Properties mj).
Proof.
  intros Hk Hrun. rewrite (getIndividualMsgsFromBatch_size _ _ _ _ _ _ Hk) in Hrun.
  destruct (k <? 0); [discriminate |].
  destruct (mapIndex_allocated _ _ _ _ Hk) as [shared Hl].
  destruct (batchLoop_done _ _ _ _ _ _ _ _ _ _ _ Hl Hrun) as (recs & rest & _ & -> & _).
  intros i j mi mj Hi Hj.
  apply messagesOf_lookup in Hi as (_ & -> & _).
  apply messagesOf_lookup in Hj as (_ & -> & _). done.
Qed.

Lemma C9_witness :
  exists msgs σ',
    @getIndividualMsgsFromBatch brokerSingle "t" id79 batch2 1%positive
      (storeWith shared2) = (Done (msgs, None), σ')
    /\ length msgs = 2%nat
    /\ forall (i j : nat) mi mj, msgs !! i = Some mi -> msgs !! j = Some mj ->
         Properties mi = Properties mj /\
         deref σ' (Properties mi) = deref σ' (Properties mj).
Proof.
  eexists _, _. split; [vm_compute; reflexivity |]. split; [reflexivity |].
  eapply (@C9_batch_properties_equal brokerSingle "t" id79 batch2 1%positive
            (storeWith shared2) 2); vm_compute; reflexivity.
Defined.

(** A batch size that [strconv.Atoi] rejects: no Message, no error, and the
    store untouched. *)
Lemma getIndividualMsgsFromBatch_unparsable `{C : Collaborators}
    topic msgID data props σ err :
  Atoi (mapIndex σ props BatchHeader) = inl err ->
  getIndividualMsgsFromBatch topic msgID data props σ = (Done ([], None), σ).
Proof.
  intros Hk. unfold getIndividualMsgsFromBatch, bind, mapLoad. by rewrite Hk.
Qed.

(** A negative batch size: [make] panics on the negative capacity. *)
Lemma getIndividualMsgsFromBatch_negative `{C : Collaborators}
    topic msgID data props σ k :
  Atoi (mapIndex σ props BatchHeader) = inr k -> k < 0 ->
  getIndividualMsgsFromBatch topic msgID data props σ
  = (Panic "makeslice: cap out of range", σ).
Proof.
  intros Hk Hneg. rewrite (getIndividualMsgsFromBatch_size _ _ _ _ _ _ Hk).
  destruct (Z.ltb_spec k 0); [done | lia].
Qed.

(** C3 fails on the code for negative sizes. The header value [-1] is
    accepted by [strconv.Atoi], and the unpacker, called directly or through
    [handleResp], panics instead of returning an empty result. *)
Theorem C3_negative_batch_size_panics :
  Atoi "-1" = inr (-1)
  /\ fst (@getIndividualMsgsFromBatch brokerSingle "t" id79 [] 1%positive
            (storeWith {[ BatchHeader := "-1" ]}))
     = Panic "makeslice: cap out of range"
  /\ fst (@handleResp brokerSingle "t" respBatchNeg (keysOf (Header respBatchNeg))
            emptyStore)
     = Panic "makeslice: cap out of range".
Proof. split; [| split]; vm_compute; reflexivity. Qed.




(** ** Responses *)

(** C6. A response with a parsable message id and no batch-size header
    yields exactly one Message, whose payload is the whole body. *)
Theorem C6_single_message_payload `{C : Collaborators}
    topic resp ks ID body σ :
  range_order (Header resp) ks ->
  ParseMessageID (Header_Get (Header resp) "X-Pulsar-Message-ID") = inr ID ->
  Body resp = inr body ->
  Header resp !! BatchHeader = None ->
  exists m σ',
    handleResp topic resp ks σ = (Done ([m], None), σ') /\ Payload m = body.
Proof.
  intros Hks HID Hbody Hno.
  assert (Hnot : BatchHeader ∉ ks).
  { rewrite (range_order_elem _ _ _ Hks), Hno. by intros [? ?]. }
  destruct (handleResp_not_batched topic resp ks ID body σ HID Hbody Hnot)
    as (props & σ' & Hrun & _).
  eauto.
Qed.

Lemma C6_witness :
  exists m σ',
    @handleResp brokerSingle "t" respSingle (keysOf (Header respSingle)) emptyStore
    = (Done ([m], None), σ')
    /\ Payload m = [x41; x42; x43]%byte.
Proof.
  apply (@C6_single_message_payload brokerSingle "t" respSingle
           (keysOf (Header respSingle)) id79 [x41; x42; x43]%byte emptyStore).
  - unfold range_order, keysOf. reflexivity.
  - vm_compute; reflexivity.
  - reflexivity.
  - vm_compute; reflexivity.
Defined.

(** ** The peek loop *)

(** The broker of plain messages answers every request with one Message. *)
Lemma brokerSingle_peek pos σ :
  exists props σ',
    @peekNthMessage brokerSingle "t" "s" pos σ
    = (Done ([mkMessage "t" id79 [x41; x42; x43]%byte props], None), σ').
Proof.
  unfold peekNthMessage, bind, logRequest. simpl.
  destruct (@handleResp_not_batched brokerSingle "t" respSingle
              (keysOf (Header respSingle)) id79 [x41; x42; x43]%byte
              (State (heap σ) (sent σ ++ [pos])))
    as (props & σ' & Hrun & _); [vm_compute; reflexivity | reflexivity | | eauto].
  vm_compute. intros Hin.
  repeat (apply elem_of_cons in Hin as [Hin | Hin]; [discriminate |]).
  by apply elem_of_nil in Hin.
Qed.

(** C4, as stated, fails: a response may bring no Message at all (here a
    batch of declared size 0), and the remaining count then stays where it
    was. Asked for one Message, the loop has issued three requests after
    three iterations and is still running. *)
Lemma C4_counterexample :
  exists σ',
    @PeekMessages brokerBatch0 3 "t" "s" 1 emptyStore = (Done None, σ')
    /\ sent σ' = [1; 2; 3]
    /\ ~ (Z.of_nat (length (sent σ')) <= 1).
Proof.
  eexists. split; [vm_compute; reflexivity |]. split; [reflexivity |].
  simpl. lia.
Qed.

(** C4, amended. When every response that comes back without error brings
    at least one Message, the loop issues at most [n] requests for a
    requested count [n], at the positions 1, 2, ... in order, however long
    it is run. *)
Theorem C4_requests_bounded `{C : Collaborators} topic sName :
  (forall pos σ msgs σ',
     peekNthMessage topic sName pos σ = (Done (msgs, None), σ') -> msgs <> []) ->
  forall fuel n σ o σ',
    PeekMessages fuel topic sName n σ = (o, σ') ->
    exists j : nat,
      sent σ' = (sent σ ++ positions 1 j)%list /\ Z.of_nat j <= Z.max 0 n.
Proof.
  intros Hne fuel n σ o σ' Hrun.
  exact (peekLoop_requests topic sName Hne fuel n 1 [] σ o σ' Hrun).
Qed.

Lemma C4_witness :
  exists j : nat,
    sent (snd (@PeekMessages brokerSingle 10 "t" "s" 3 emptyStore))
    = (sent emptyStore ++ positions 1 j)%list
    /\ Z.of_nat j <= Z.max 0 3.
Proof.
  apply (@C4_requests_bounded brokerSingle "t" "s") with
    (fuel := 10%nat) (o := fst (@PeekMessages brokerSingle 10 "t" "s" 3 emptyStore)).
  - intros pos σ msgs σ' Hrun.
    destruct (brokerSingle_peek pos σ) as (props & σ1 & Hone).
    rewrite Hone in Hrun. injection Hrun as <- _. discriminate.
  - by destruct (@PeekMessages brokerSingle 10 "t" "s" 3 emptyStore).
Defined.

(** C7. Asked for five Messages of a topic whose every position yields
    exactly one, the loop issues exactly five requests, at positions 1 to 5
    in that order, and returns the five Messages in the order of their
    positions. *)
Theorem C7_five_singles `{C : Collaborators} topic sName :
  (forall p, 1 <= p <= 5 ->
     forall σ, exists m σ', peekNthMessage topic sName p σ = (Done ([m], None), σ')) ->
  forall fuel σ, (5 <= fuel)%nat ->
    exists ms σ',
      PeekMessages fuel topic sName 5 σ = (Done (Some (ms, None)), σ')
      /\ peeks topic sName 1 5 σ ms σ'
      /\ length ms = 5%nat
      /\ sent σ' = (sent σ ++ [1; 2; 3; 4; 5])%list.
Proof.
  intros Hone fuel σ Hfuel.
  destruct (peeks_exist topic sName 5 1 σ) as (ms & σ' & Hpeeks).
  { intros p Hp. apply Hone. lia. }
  exists ms, σ'.
  pose proof (peekLoop_singles _ _ _ _ _ _ _ Hpeeks fuel [] Hfuel) as Hrun.
  destruct (peeks_sent _ _ _ _ _ _ _ Hpeeks) as [Hsent Hlen].
  repeat split; done.
Qed.

Lemma C7_witness :
  exists ms σ',
    @PeekMessages brokerSingle 5 "t" "s" 5 emptyStore = (Done (Some (ms, None)), σ')
    /\ @peeks brokerSingle "t" "s" 1 5 emptyStore ms σ'
    /\ length ms = 5%nat
    /\ sent σ' = (sent emptyStore ++ [1; 2; 3; 4; 5])%list.
Proof.
  apply (@C7_five_singles brokerSingle "t" "s"); [| lia].
  intros p _ σ. destruct (brokerSingle_peek p σ) as (props & σ' & Hone). eauto.
Defined.

(** C10. A requested count that is zero or negative issues no request and
    returns no Message and no error. *)
Theorem C10_nonpositive_count `{C : Collaborators} fuel topic sName n σ :
  n <= 0 ->
  PeekMessages fuel topic sName n σ = (Done (Some ([], None)), σ).
Proof.
  intros Hn. unfold PeekMessages.
  destruct fuel; simpl; destruct (Z.ltb_spec 0 n); (lia || reflexivity).
Qed.

Lemma C10_witness :
  @PeekMessages brokerSingle 0 "t" "s" (-3) emptyStore
  = (Done (Some ([], None)), emptyStore)
  /\ sent emptyStore = [].
Proof.
  split; [| reflexivity].
  apply (@C10_nonpositive_count brokerSingle 0 "t" "s" (-3) emptyStore). lia.
Defined.

(** C8 fails on the code. [Header.Get] looks a key up under its canonical
    form, and no key can hold [PropertyPrefix] and be canonical: a header
    stored under the name [X-Pulsar-PROPERTY-foo] gives [foo] the empty
    value, and one stored as [net/http] stores what it receives,
    [X-Pulsar-Property-Foo], is not recognised. In a batched response the
    scan also stops at the batch-size header, so a property header visited
    after it is never applied. *)
Theorem C8_custom_property_lost :
  (exists m σ',
     @handleResp brokerSingle "t" respFooLiteral
       ["X-Pulsar-Message-Id"; "X-Pulsar-PROPERTY-foo"] emptyStore
     = (Done ([m], None), σ')
     /\ deref σ' (Properties m) !! "foo" = Some "")
  /\ (exists m σ',
        @handleResp brokerSingle "t" respFooCanonical
          ["X-Pulsar-Message-Id"; "X-Pulsar-Property-Foo"] emptyStore
        = (Done ([m], None), σ')
        /\ deref σ' (Properties m) !! "foo" = None)
  /\ (exists m0 m1 σ',
        @handleResp brokerSingle "t" respFooBatch
          ["X-Pulsar-Message-Id"; "X-Pulsar-Num-Batch-Message"; "X-Pulsar-PROPERTY-foo"]
          emptyStore
        = (Done ([m0; m1], None), σ')
        /\ deref σ' (Properties m0) !! "foo" = None
        /\ deref σ' (Properties m1) !! "foo" = None).
Proof.
  split; [| split].
  - eexists _, _. split; vm_compute; reflexivity.
  - eexists _, _. split; vm_compute; reflexivity.
  - eexists _, _, _. split; [| split]; vm_compute; reflexivity.
Qed.

(** The orders used above are orders of the headers they scan. *)
Lemma C8_orders :
  range_order (Header respFooLiteral) ["X-Pulsar-Message-Id"; "X-Pulsar-PROPERTY-foo"]
  /\ range_order (Header respFooCanonical) ["X-Pulsar-Message-Id"; "X-Pulsar-Property-Foo"]
  /\ range_order (Header respFooBatch)
       ["X-Pulsar-Message-Id"; "X-Pulsar-Num-Batch-Message"; "X-Pulsar-PROPERTY-foo"].
Proof.
  unfold range_order. split; [| split]; vm_compute; reflexivity.
Qed.


(** * Further properties *)

(** ** The header scan *)

Section Scan.
Context `{C : Collaborators}.

Lemma scanProps_cons h k ks m :
  scanProps h (k :: ks) m = scanProps h ks (applyEntry h m k).
Proof. reflexivity. Qed.

Lemma scanProps_snoc h ks k m :
  scanProps h (ks ++ [k]) m = applyEntry h (scanProps h ks m) k.
Proof. unfold scanProps. by rewrite foldl_app. Qed.

(** Visiting a key other than the batch-size key stores its entry. *)
Lemma visit_entry h k props σ m :
  k <> BatchHeader ->
  heap σ !! props = Some m ->
  exists σ1,
    heap σ1 = <[props := applyEntry h m k]> (heap σ) /\ sent σ1 = sent σ /\
    forall topic resp ID payload ks, Header resp = h ->
      scanHeaders (k :: ks) topic resp ID payload props σ
      = scanHeaders ks topic resp ID payload props σ1.
Proof.
  intros Hne Hl.
  assert (Hsame : exists σ1, heap σ1 = <[props := m]> (heap σ) /\ sent σ1 = sent σ /\ σ1 = σ).
  { exists σ. by rewrite insert_id. }
  unfold applyEntry, headerEntry.
  destruct (String.eqb_spec k PublishTimeHeader) as [-> | Hpub].
  - destruct (negb (String.eqb (Header_Get h PublishTimeHeader) "")) eqn:Hv.
    + eexists (State _ (sent σ)). split; [reflexivity |]. split; [reflexivity |].
      intros topic resp ID payload ks <-. simpl. unfold bind.
      by rewrite Hv, (mapStore_some _ _ _ _ _ Hl).
    + destruct Hsame as (σ1 & ? & ? & ->). exists σ. repeat split; try done.
      intros topic resp ID payload ks <-. simpl. unfold bind. by rewrite Hv.
  - destruct (String.eqb_spec k BatchHeader) as [-> | _]; [done |].
    destruct (Contains k PropertyPrefix) eqn:Hc.
    + eexists (State _ (sent σ)). split; [reflexivity |]. split; [reflexivity |].
      intros topic resp ID payload ks <-. simpl. unfold bind.
      destruct (String.eqb_spec k PublishTimeHeader); [done |].
      destruct (String.eqb_spec k BatchHeader); [done |].
      by rewrite Hc, (mapStore_some _ _ _ _ _ Hl).
    + destruct Hsame as (σ1 & ? & ? & ->). exists σ. repeat split; try done.
      intros topic resp ID payload ks <-. simpl.
      destruct (String.eqb_spec k PublishTimeHeader); [done |].
      destruct (String.eqb_spec k BatchHeader); [done |].
      by rewrite Hc.
Qed.

(** A scan that meets no batch-size key visits every key and builds one
    Message; the properties are those of the visits, in order. *)
Lemma scanHeaders_plain ks topic resp ID payload props : forall σ m,
  BatchHeader ∉ ks ->
  heap σ !! props = Some m ->
  scanHeaders ks topic resp ID payload props σ
  = (Done ([NewMessage (TopicName_String topic) ID payload props], None),
     State (<[props := scanProps (Header resp) ks m]> (heap σ)) (sent σ)).
Proof.
  induction ks as [| k ks IH]; intros σ m Hno Hl.
  - simpl. unfold ret. by rewrite insert_id, state_eta.
  - apply not_elem_of_cons in Hno as [Hne Hno].
    destruct (visit_entry (Header resp) k props σ m (not_eq_sym Hne) Hl)
      as (σ1 & Hh & Hs & Hstep).
    rewrite (Hstep topic resp ID payload ks eq_refl), scanProps_cons.
    rewrite (IH σ1 (applyEntry (Header resp) m k) Hno);
      [| by rewrite Hh, lookup_insert_eq].
    by rewrite Hh, Hs, insert_insert_eq.
Qed.

(** A scan that meets the batch-size key hands over to the unpacker with
    the properties of the visits up to and including that key; the keys
    after it are not visited. *)
Lemma scanHeaders_batched pre post topic resp ID payload props : forall σ m,
  BatchHeader ∉ pre ->
  heap σ !! props = Some m ->
  scanHeaders (pre ++ BatchHeader :: post) topic resp ID payload props σ
  = getIndividualMsgsFromBatch topic ID payload props
      (State (<[props := scanProps (Header resp) (pre ++ [BatchHeader]) m]> (heap σ))
             (sent σ)).
Proof.
  induction pre as [| k pre IH]; intros σ m Hno Hl.
  - simpl. unfold scanProps, applyEntry, headerEntry, bind. simpl.
    destruct (negb (String.eqb (Header_Get (Header resp) BatchHeader) "")).
    + by rewrite (mapStore_some _ _ _ _ _ Hl).
    + unfold ret. by rewrite insert_id, state_eta.
  - apply not_elem_of_cons in Hno as [Hne Hno].
    destruct (visit_entry (Header resp) k props σ m (not_eq_sym Hne) Hl)
      as (σ1 & Hh & Hs & Hstep).
    rewrite <- !app_comm_cons.
    rewrite (Hstep topic resp ID payload _ eq_refl), scanProps_cons.
    rewrite (IH σ1 (applyEntry (Header resp) m k) Hno);
      [| by rewrite Hh, lookup_insert_eq].
    by rewrite Hh, Hs, insert_insert_eq.
Qed.

(** [handleResp] up to the scan. *)
Lemma handleResp_scan topic resp ks ID payload σ :
  ParseMessageID (Header_Get (Header resp) "X-Pulsar-Message-ID") = inr ID ->
  Body resp = inr payload ->
  handleResp topic resp ks σ
  = scanHeaders ks topic resp ID payload (fresh (dom (heap σ)))
      (State (<[fresh (dom (heap σ)) := ∅]> (heap σ)) (sent σ)).
Proof. intros HID Hbody. unfold handleResp. by rewrite HID, Hbody. Qed.

(** The last visit that writes a key decides its value. *)
Lemma scanProps_decided h key v ks : forall m,
  (forall k v', k ∈ ks -> headerEntry h k = Some (key, v') -> v' = v) ->
  m !! key = Some v \/ (exists k, k ∈ ks /\ headerEntry h k = Some (key, v)) ->
  scanProps h ks m !! key = Some v.
Proof.
  induction ks as [| k ks IH]; intros m Hall Hsome.
  - destruct Hsome as [Hm | (k & Hk & _)]; [done |]. by apply elem_of_nil in Hk.
  - rewrite scanProps_cons. apply IH.
    { intros k0 v' Hk0. apply Hall. by right. }
    unfold applyEntry.
    destruct (headerEntry h k) as [[key' v'] |] eqn:He.
    + destruct (decide (key' = key)) as [-> | Hne].
      * left. rewrite lookup_insert_eq. f_equal. eapply Hall; [by left | done].
      * rewrite lookup_insert_ne by done.
        destruct Hsome as [Hm | (k0 & Hk0 & He0)]; [by left |].
        apply elem_of_cons in Hk0 as [-> | Hk0]; [congruence | eauto].
    + destruct Hsome as [Hm | (k0 & Hk0 & He0)]; [by left |].
      apply elem_of_cons in Hk0 as [-> | Hk0]; [congruence | eauto].
Qed.

(** A key that no visit writes keeps its value. *)
Lemma scanProps_untouched h key ks : forall m,
  (forall k v, k ∈ ks -> headerEntry h k <> Some (key, v)) ->
  scanProps h ks m !! key = m !! key.
Proof.
  induction ks as [| k ks IH]; intros m Hall; [done |].
  rewrite scanProps_cons, IH.
  - unfold applyEntry. destruct (headerEntry h k) as [[key' v'] |] eqn:He; [| done].
    apply lookup_insert_ne. intros ->. eapply Hall; [by left | done].
  - intros k0 v Hk0. apply Hall. by right.
Qed.

End Scan.

(** ** Header names *)

Lemma HasPrefix_TrimPrefix s p :
  HasPrefix s p = true -> s = (p ++ TrimPrefix s p)%string.
Proof.
  unfold TrimPrefix. intros H. rewrite H. revert s H.
  induction p as [| a p IH]; intros s H; [done |].
  destruct s as [| b s]; [done |]. simpl in *.
  destruct (Ascii.eqb_spec a b) as [-> | _]; [| done].
  change (String b s = String b (p ++ dropString (String.length p) s)%string).
  f_equal. by apply IH.
Qed.

(** A key that is stored as a custom property under the name [key] is
    [PropertyPrefix] followed by [key], unless [key] itself holds the prefix. *)
Lemma TrimPrefix_key k key :
  Contains k PropertyPrefix = true ->
  TrimPrefix k PropertyPrefix = key ->
  Contains key PropertyPrefix = false ->
  k = (PropertyPrefix ++ key)%string.
Proof.
  intros Hc Hkey Hnot.
  destruct (HasPrefix k PropertyPrefix) eqn:Hp.
  - rewrite <- Hkey. by apply HasPrefix_TrimPrefix.
  - unfold TrimPrefix in Hkey. rewrite Hp in Hkey. congruence.
Qed.

(** A canonical key does not start with [PropertyPrefix]: canonical form
    has [Property] where the prefix has [PROPERTY]. *)
Lemma canonical_not_prefixed upper s :
  canonicalize upper s = s -> HasPrefix s PropertyPrefix = false.
Proof.
  intros Hcan. destruct (HasPrefix s PropertyPrefix) eqn:Hp; [| done].
  apply HasPrefix_TrimPrefix in Hp.
  generalize dependent (TrimPrefix s PropertyPrefix). intros r ->.
  destruct upper; vm_compute in Hcan; discriminate Hcan.
Qed.

Lemma canonical_no_property upper s :
  canonicalize upper s = s -> Contains s PropertyPrefix = false.
Proof.
  revert upper. induction s as [| a s IH]; intros upper Hcan; [done |].
  change (Contains (String a s) PropertyPrefix)
    with (if HasPrefix (String a s) PropertyPrefix then true
          else Contains s PropertyPrefix).
  rewrite (canonical_not_prefixed upper _ Hcan).
  simpl in Hcan. injection Hcan as _ Hcan. eauto.
Qed.

(** Keys as [net/http] stores the names of the headers it receives: made
    of token bytes and in canonical form. *)
Lemma stored_key_no_property k :
  allValid k = true -> CanonicalMIMEHeaderKey k = k ->
  Contains k PropertyPrefix = false.
Proof.
  unfold CanonicalMIMEHeaderKey. intros -> Hcan. by eapply canonical_no_property.
Qed.

(** ** Responses, for every order of the scan *)

Section Responses.
Context `{C : Collaborators}.

Lemma Header_Get_present h k v :
  CanonicalMIMEHeaderKey k = k -> Header_Get h k = v -> v <> "" ->
  is_Some (h !! k).
Proof.
  unfold Header_Get. intros -> Hv Hne.
  destruct (h !! k) as [vs |]; [eauto | congruence].
Qed.

Lemma nonempty_test v : v <> "" -> negb (String.eqb v "") = true.
Proof. intros Hne. by apply String.eqb_neq in Hne as ->. Qed.

(** A response without batch-size header, in full. *)
Lemma handleResp_plain topic resp ks ID payload σ :
  range_order (Header resp) ks ->
  ParseMessageID (Header_Get (Header resp) "X-Pulsar-Message-ID") = inr ID ->
  Body resp = inr payload ->
  Header resp !! BatchHeader = None ->
  exists m σ',
    handleResp topic resp ks σ = (Done ([m], None), σ')
    /\ deref σ' (Properties m) = scanProps (Header resp) ks ∅.
Proof.
  intros Hks HID Hbody Hno.
  assert (Hnot : BatchHeader ∉ ks).
  { rewrite (range_order_elem _ _ _ Hks), Hno. by intros [? ?]. }
  rewrite (handleResp_scan _ _ _ _ _ _ HID Hbody).
  rewrite (scanHeaders_plain ks topic resp ID payload _ _ ∅ Hnot);
    [| simpl; apply lookup_insert_eq].
  eexists _, _. split; [reflexivity |].
  unfold deref. simpl. by rewrite lookup_insert_eq.
Qed.

(** A response with a batch-size header of value [v]: the unpacker runs on
    the body with a new map in which [v] is the declared size. *)
Lemma handleResp_batched topic resp ks ID payload σ v :
  ParseMessageID (Header_Get (Header resp) "X-Pulsar-Message-ID") = inr ID ->
  Body resp = inr payload ->
  BatchHeader ∈ ks ->
  Header_Get (Header resp) BatchHeader = v -> v <> "" ->
  exists l σb,
    heap σ !! l = None
    /\ mapIndex σb l BatchHeader = v
    /\ handleResp topic resp ks σ
       = getIndividualMsgsFromBatch topic ID payload l σb.
Proof.
  intros HID Hbody Hin Hv Hne.
  apply list_elem_of_split_l in Hin as (pre & post & -> & Hpre).
  rewrite (handleResp_scan _ _ _ _ _ _ HID Hbody).
  rewrite (scanHeaders_batched pre post topic resp ID payload _ _ ∅ Hpre);
    [| simpl; apply lookup_insert_eq].
  eexists _, _. split; [| split; [| reflexivity]].
  - apply not_elem_of_dom, is_fresh.
  - unfold mapIndex. simpl. rewrite lookup_insert_eq, scanProps_snoc.
    unfold applyEntry, headerEntry. simpl. rewrite Hv, (nonempty_test _ Hne).
    by rewrite lookup_insert_eq.
Qed.

End Responses.

(** X1. The publish time of a non-batched response is the [publish-time]
    property of its Message, whatever the order of the scan, unless the
    response also carries a custom property of that very name. *)
Theorem handleResp_publish_time `{C : Collaborators}
    topic resp ks ID payload σ v :
  range_order (Header resp) ks ->
  ParseMessageID (Header_Get (Header resp) "X-Pulsar-Message-ID") = inr ID ->
  Body resp = inr payload ->
  Header resp !! BatchHeader = None ->
  Header_Get (Header resp) PublishTimeHeader = v -> v <> "" ->
  Header resp !! (PropertyPrefix ++ "publish-time")%string = None ->
  exists m σ',
    handleResp topic resp ks σ = (Done ([m], None), σ')
    /\ deref σ' (Properties m) !! "publish-time" = Some v.
Proof.
  intros Hks HID Hbody Hno Hv Hne Hcustom.
  destruct (handleResp_plain topic resp ks ID payload σ Hks HID Hbody Hno)
    as (m & σ' & Hrun & Hprops).
  exists m, σ'. split; [done |]. rewrite Hprops.
  apply scanProps_decided.
  - intros k v' Hk. unfold headerEntry.
    destruct (String.eqb_spec k PublishTimeHeader) as [-> | _].
    { rewrite Hv. destruct (negb (String.eqb v "")); congruence. }
    destruct (String.eqb_spec k BatchHeader) as [-> | _].
    { destruct (negb _); [| done]. by intros [=]. }
    destruct (Contains k PropertyPrefix) eqn:Hc; [| done].
    intros [= Hkey _]. rewrite (TrimPrefix_key _ _ Hc Hkey eq_refl) in Hk.
    apply (range_order_elem _ _ _ Hks) in Hk. rewrite Hcustom in Hk.
    by destruct Hk.
  - right. exists PublishTimeHeader. split.
    + apply (range_order_elem _ _ _ Hks).
      by apply (Header_Get_present _ _ v).
    + unfold headerEntry. simpl. by rewrite Hv, (nonempty_test _ Hne).
Qed.

Lemma handleResp_publish_time_witness :
  exists m σ',
    @handleResp brokerSingle "t" respSingle (keysOf (Header respSingle)) emptyStore
    = (Done ([m], None), σ')
    /\ deref σ' (Properties m) !! "publish-time" = Some "1700000000".
Proof.
  apply (@handleResp_publish_time brokerSingle "t" respSingle
           (keysOf (Header respSingle)) id79 [x41; x42; x43]%byte emptyStore).
  - unfold range_order, keysOf. reflexivity.
  - vm_compute; reflexivity.
  - reflexivity.
  - vm_compute; reflexivity.
  - vm_compute; reflexivity.
  - discriminate.
  - vm_compute; reflexivity.
Defined.

(** X2. When every header name of a non-batched response is stored as
    [net/http] stores received names (token bytes, canonical form), no
    custom property reaches the Message: its Properties hold nothing but,
    at most, [publish-time]. *)
Theorem handleResp_stored_names_no_custom `{C : Collaborators}
    topic resp ks ID payload σ :
  range_order (Header resp) ks ->
  ParseMessageID (Header_Get (Header resp) "X-Pulsar-Message-ID") = inr ID ->
  Body resp = inr payload ->
  Header resp !! BatchHeader = None ->
  (forall k : string, is_Some (Header resp !! k) ->
     allValid k = true /\ CanonicalMIMEHeaderKey k = k) ->
  exists m σ',
    handleResp topic resp ks σ = (Done ([m], None), σ')
    /\ forall key : string,
         key <> "publish-time" -> deref σ' (Properties m) !! key = None.
Proof.
  intros Hks HID Hbody Hno Hstored.
  destruct (handleResp_plain topic resp ks ID payload σ Hks HID Hbody Hno)
    as (m & σ' & Hrun & Hprops).
  exists m, σ'. split; [done |]. intros key Hkey. rewrite Hprops.
  rewrite scanProps_untouched; [apply lookup_empty |].
  intros k v Hk. apply (range_order_elem _ _ _ Hks) in Hk as Hpresent.
  destruct (Hstored k Hpresent) as [Hvalid Hcan].
  unfold headerEntry.
  destruct (String.eqb_spec k PublishTimeHeader) as [-> | _].
  { destruct (negb _); [| discriminate]. intros [= <- _]. exact (Hkey eq_refl). }
  destruct (String.eqb_spec k BatchHeader) as [-> | _].
  { rewrite Hno in Hpresent. destruct Hpresent as [? [=]]. }
  rewrite (stored_key_no_property k Hvalid Hcan). discriminate.
Qed.

Lemma handleResp_stored_names_no_custom_witness :
  exists m σ',
    @handleResp brokerSingle "t" respFooCanonical
      (keysOf (Header respFooCanonical)) emptyStore
    = (Done ([m], None), σ')
    /\ forall key : string,
         key <> "publish-time" -> deref σ' (Properties m) !! key = None.
Proof.
  apply (@handleResp_stored_names_no_custom brokerSingle "t" respFooCanonical
           (keysOf (Header respFooCanonical)) id79 [x41]%byte emptyStore).
  - unfold range_order, keysOf. reflexivity.
  - vm_compute; reflexivity.
  - reflexivity.
  - vm_compute; reflexivity.
  - intros k Hk.
    assert (Hin : k ∈ keysOf (Header respFooCanonical)).
    { apply (range_order_elem (Header respFooCanonical)); [| done].
      unfold range_order, keysOf. reflexivity. }
    vm_compute in Hin.
    repeat (apply elem_of_cons in Hin as [-> | Hin];
            [split; vm_compute; reflexivity |]).
    by apply elem_of_nil in Hin.
Defined.

(** X3. What a custom-property header of a non-batched response becomes:
    the header name with a leading [PropertyPrefix] removed maps to
    [Header.Get] of the name, provided no other header is stored under the
    same property name. The value is the one stored under the canonical
    form of the name, hence empty when nothing is stored there. *)
Theorem handleResp_custom_property `{C : Collaborators}
    topic resp ks ID payload σ (k : string) :
  range_order (Header resp) ks ->
  ParseMessageID (Header_Get (Header resp) "X-Pulsar-Message-ID") = inr ID ->
  Body resp = inr payload ->
  Header resp !! BatchHeader = None ->
  is_Some (Header resp !! k) ->
  Contains k PropertyPrefix = true ->
  TrimPrefix k PropertyPrefix <> "publish-time" ->
  (forall k' : string, is_Some (Header resp !! k') -> k' <> k ->
     Contains k' PropertyPrefix = true ->
     TrimPrefix k' PropertyPrefix <> TrimPrefix k PropertyPrefix) ->
  exists m σ',
    handleResp topic resp ks σ = (Done ([m], None), σ')
    /\ deref σ' (Properties m) !! TrimPrefix k PropertyPrefix
       = Some (Header_Get (Header resp) k).
Proof.
  intros Hks HID Hbody Hno Hk Hc Hpub Hunique.
  destruct (handleResp_plain topic resp ks ID payload σ Hks HID Hbody Hno)
    as (m & σ' & Hrun & Hprops).
  exists m, σ'. split; [done |]. rewrite Hprops.
  assert (Hentry : headerEntry (Header resp) k
                   = Some (TrimPrefix k PropertyPrefix, Header_Get (Header resp) k)).
  { unfold headerEntry.
    destruct (String.eqb_spec k PublishTimeHeader) as [-> | _]; [discriminate |].
    destruct (String.eqb_spec k BatchHeader) as [-> | _]; [discriminate |].
    by rewrite Hc. }
  apply scanProps_decided.
  - intros k' v' Hk'. destruct (decide (k' = k)) as [-> | Hne]; [congruence |].
    apply (range_order_elem _ _ _ Hks) in Hk'. unfold headerEntry.
    destruct (String.eqb_spec k' PublishTimeHeader) as [-> | _].
    { destruct (negb _); [| done]. intros [= Hkey _]. by rewrite <- Hkey in Hpub. }
    destruct (String.eqb_spec k' BatchHeader) as [-> | _].
    { rewrite Hno in Hk'. by destruct Hk'. }
    destruct (Contains k' PropertyPrefix) eqn:Hc'; [| done].
    intros [= Hkey _]. by destruct (Hunique k' Hk' Hne Hc').
  - right. exists k. split; [| done]. by apply (range_order_elem _ _ _ Hks).
Qed.

Lemma handleResp_custom_property_witness :
  exists m σ',
    @handleResp brokerSingle "t" respFooLiteral
      (keysOf (Header respFooLiteral)) emptyStore
    = (Done ([m], None), σ')
    /\ deref σ' (Properties m) !! "foo" = Some "".
Proof.
  apply (@handleResp_custom_property brokerSingle "t" respFooLiteral
           (keysOf (Header respFooLiteral)) id79 [x41]%byte emptyStore
           "X-Pulsar-PROPERTY-foo").
  - unfold range_order, keysOf. reflexivity.
  - vm_compute; reflexivity.
  - reflexivity.
  - vm_compute; reflexivity.
  - vm_compute; eauto.
  - reflexivity.
  - discriminate.
  - intros k' Hk' Hne Hc.
    assert (Hin : k' ∈ keysOf (Header respFooLiteral)).
    { apply (range_order_elem (Header respFooLiteral)); [| done].
      unfold range_order, keysOf. reflexivity. }
    vm_compute in Hin.
    apply elem_of_cons in Hin as [-> | Hin]; [discriminate |].
    apply elem_of_cons in Hin as [-> | Hin]; [done |].
    by apply elem_of_nil in Hin.
Defined.

(** X4. A batched response, whatever the order of the scan: when the
    batch-size header holds the size [n] and the body decodes without
    error, [handleResp] returns [n] Messages, the [i]-th with [BatchIndex]
    [i] and the ledger and entry of the parsed message id. *)
Theorem handleResp_batch_count `{C : Collaborators}
    topic resp ks ID payload σ v n msgs σ' :
  range_order (Header resp) ks ->
  ParseMessageID (Header_Get (Header resp) "X-Pulsar-Message-ID") = inr ID ->
  Body resp = inr payload ->
  Header_Get (Header resp) BatchHeader = v -> v <> "" -> Atoi v = inr n ->
  handleResp topic resp ks σ = (Done (msgs, None), σ') ->
  Z.of_nat (length msgs) = n /\
  forall (i : nat) m, msgs !! i = Some m ->
    BatchIndex (MsgID m) = Z.of_nat i /\
    LedgerID (MsgID m) = LedgerID ID /\
    EntryID (MsgID m) = EntryID ID.
Proof.
  intros Hks HID Hbody Hv Hne Hn Hrun.
  assert (Hin : BatchHeader ∈ ks).
  { apply (range_order_elem _ _ _ Hks). by apply (Header_Get_present _ _ v). }
  destruct (handleResp_batched topic resp ks ID payload σ v HID Hbody Hin Hv Hne)
    as (l & σb & _ & Hsize & Heq).
  rewrite Heq in Hrun. rewrite <- Hsize in Hn.
  rewrite (getIndividualMsgsFromBatch_size _ _ _ _ _ _ Hn) in Hrun.
  destruct (Z.ltb_spec n 0) as [Hneg | Hpos]; [discriminate |].
  destruct (mapIndex_allocated _ _ _ _ Hn) as [shared Hl].
  destruct (batchLoop_done _ _ _ _ _ _ _ _ _ _ _ Hl Hrun) as (recs & rest & Hrecs & -> & _).
  simpl. split.
  - rewrite messagesOf_length, (decodeRecords_length _ _ _ _ Hrecs). lia.
  - intros i m Hm. apply messagesOf_lookup in Hm as (-> & _). simpl.
    split; [lia |]. split; reflexivity.
Qed.

Lemma handleResp_batch_count_witness :
  exists msgs σ',
    @handleResp brokerBatch2 "t" respBatch2 (keysOf (Header respBatch2)) emptyStore
    = (Done (msgs, None), σ')
    /\ Z.of_nat (length msgs) = 2
    /\ forall (i : nat) m, msgs !! i = Some m ->
         BatchIndex (MsgID m) = Z.of_nat i /\
         LedgerID (MsgID m) = 7 /\ EntryID (MsgID m) = 9.
Proof.
  eexists _, _. split; [vm_compute; reflexivity |].
  eapply (@handleResp_batch_count brokerBatch2 "t" respBatch2
            (keysOf (Header respBatch2)) id79 batch2 emptyStore "2" 2).
  - unfold range_order, keysOf. reflexivity.
  - vm_compute; reflexivity.
  - reflexivity.
  - vm_compute; reflexivity.
  - discriminate.
  - reflexivity.
  - vm_compute; reflexivity.
Defined.

(** X5. The keys that the scan would visit after the batch-size key have
    no effect at all: two orders that agree up to that key give the same
    result. *)
Theorem handleResp_after_batch_ignored `{C : Collaborators}
    topic resp (pre post post' : list string) σ :
  BatchHeader ∉ pre ->
  handleResp topic resp (pre ++ BatchHeader :: post) σ
  = handleResp topic resp (pre ++ BatchHeader :: post') σ.
Proof.
  intros Hpre. unfold handleResp.
  destruct (ParseMessageID _) as [err | ID]; [done |].
  destruct (Body resp) as [err | payload]; [reflexivity |].
  unfold bind, makeMap.
  rewrite !(scanHeaders_batched pre _ topic resp ID payload _ _ ∅ Hpre)
    by (simpl; apply lookup_insert_eq).
  reflexivity.
Qed.

Lemma handleResp_after_batch_ignored_witness :
  @handleResp brokerSingle "t" respFooBatch
    (["X-Pulsar-Message-Id"] ++ BatchHeader :: ["X-Pulsar-PROPERTY-foo"]) emptyStore
  = @handleResp brokerSingle "t" respFooBatch
      (["X-Pulsar-Message-Id"] ++ BatchHeader :: []) emptyStore.
Proof.
  apply (@handleResp_after_batch_ignored brokerSingle "t" respFooBatch
           ["X-Pulsar-Message-Id"] ["X-Pulsar-PROPERTY-foo"] [] emptyStore).
  intros Hin. apply elem_of_cons in Hin as [Heq | Hin]; [discriminate Heq |].
  by apply elem_of_nil in Hin.
Defined.

(** X6. A response whose batch-size header holds a value that
    [strconv.Atoi] rejects yields no Message and no error, whatever the
    order of the scan and whatever the body. *)
Theorem handleResp_unparsable_batch_size `{C : Collaborators}
    topic resp ks ID payload σ v err :
  range_order (Header resp) ks ->
  ParseMessageID (Header_Get (Header resp) "X-Pulsar-Message-ID") = inr ID ->
  Body resp = inr payload ->
  Header_Get (Header resp) BatchHeader = v -> v <> "" -> Atoi v = inl err ->
  exists σ', handleResp topic resp ks σ = (Done ([], None), σ').
Proof.
  intros Hks HID Hbody Hv Hne Hn.
  assert (Hin : BatchHeader ∈ ks).
  { apply (range_order_elem _ _ _ Hks). by apply (Header_Get_present _ _ v). }
  destruct (handleResp_batched topic resp ks ID payload σ v HID Hbody Hin Hv Hne)
    as (l & σb & _ & Hsize & ->).
  rewrite <- Hsize in Hn.
  rewrite (getIndividualMsgsFromBatch_unparsable _ _ _ _ _ _ Hn). eauto.
Qed.

Lemma handleResp_unparsable_batch_size_witness :
  exists σ',
    @handleResp brokerSingle "t" respBatchBad (keysOf (Header respBatchBad)) emptyStore
    = (Done ([], None), σ').
Proof.
  apply (@handleResp_unparsable_batch_size brokerSingle "t" respBatchBad
           (keysOf (Header respBatchBad)) id79 batch2 emptyStore "two"
           (NumError "two")).
  - unfold range_order, keysOf. reflexivity.
  - vm_compute; reflexivity.
  - reflexivity.
  - vm_compute; reflexivity.
  - discriminate.
  - reflexivity.
Defined.

(** X7. A response whose batch-size header holds a negative integer makes
    [handleResp] panic, whatever the order of the scan, the other headers
    and the body. *)
Theorem handleResp_negative_batch_size `{C : Collaborators}
    topic resp ks ID payload σ v n :
  range_order (Header resp) ks ->
  ParseMessageID (Header_Get (Header resp) "X-Pulsar-Message-ID") = inr ID ->
  Body resp = inr payload ->
  Header_Get (Header resp) BatchHeader = v -> Atoi v = inr n -> n < 0 ->
  exists σ',
    handleResp topic resp ks σ = (Panic "makeslice: cap out of range", σ').
Proof.
  intros Hks HID Hbody Hv Hn Hneg.
  assert (Hne : v <> "") by (intros ->; discriminate Hn).
  assert (Hin : BatchHeader ∈ ks).
  { apply (range_order_elem _ _ _ Hks). by apply (Header_Get_present _ _ v). }
  destruct (handleResp_batched topic resp ks ID payload σ v HID Hbody Hin Hv Hne)
    as (l & σb & _ & Hsize & ->).
  rewrite <- Hsize in Hn.
  rewrite (getIndividualMsgsFromBatch_negative _ _ _ _ _ _ Hn Hneg). eauto.
Qed.

Lemma handleResp_negative_batch_size_witness :
  exists σ',
    @handleResp brokerSingle "t" respBatchNeg (keysOf (Header respBatchNeg)) emptyStore
    = (Panic "makeslice: cap out of range", σ').
Proof.
  apply (@handleResp_negative_batch_size brokerSingle "t" respBatchNeg
           (keysOf (Header respBatchNeg)) id79 [] emptyStore "-1" (-1)).
  - unfold range_order, keysOf. reflexivity.
  - vm_compute; reflexivity.
  - reflexivity.
  - vm_compute; reflexivity.
  - reflexivity.
  - lia.
Defined.

(** ** Well-formed batches *)

Section Frames.
Context `{C : Collaborators}.

Lemma ReadFull_exact (a rest : list byte) :
  ReadFull (a ++ rest) (Z.of_nat (length a)) = (inr a, rest).
Proof.
  unfold ReadFull. destruct a as [| b a]; [reflexivity |].
  destruct (Z.eqb_spec (Z.of_nat (length (b :: a))) 0) as [H0 | _];
    [simpl in H0; lia |].
  change ((b :: a) ++ rest)%list with (b :: (a ++ rest))%list. cbv iota.
  destruct (Z.ltb_spec (Z.of_nat (length (b :: a ++ rest)%list))
              (Z.of_nat (length (b :: a)))) as [Hlt | _].
  { simpl in Hlt. rewrite length_app in Hlt. lia. }
  rewrite Nat2Z.id.
  change (b :: a ++ rest)%list with ((b :: a) ++ rest)%list.
  by rewrite take_app_length, drop_app_length.
Qed.

Lemma decodeRecord_frame f rest :
  wellFramed f ->
  decodeRecord (frameBytes f ++ rest)
  = Record_ (frameMeta f) (framePayload f) rest.
Proof.
  intros (Hlen & Hsize & Hmeta & Hkv & Hpay). unfold decodeRecord, frameBytes.
  rewrite <- !app_assoc.
  replace 4 with (Z.of_nat (length (framePrefix f))) by (rewrite Hlen; reflexivity).
  rewrite ReadFull_exact, Hsize, ReadFull_exact, Hmeta, Hkv. simpl negb. cbv iota.
  destruct (Z.ltb_spec (GetPayloadSize (frameMeta f)) 0) as [Hneg | _]; [lia |].
  by rewrite Hpay, ReadFull_exact.
Qed.

Lemma decodeRecords_frames fs rest :
  Forall wellFramed fs ->
  decodeRecords (length fs) (concat (frameBytes <$> fs) ++ rest)
  = Some ((fun f => (frameMeta f, framePayload f)) <$> fs, rest).
Proof.
  induction 1 as [| f fs Hf _ IH]; [reflexivity |].
  rewrite !fmap_cons. cbn [concat length decodeRecords].
  rewrite <- app_assoc, (decodeRecord_frame _ _ Hf), IH. reflexivity.
Qed.

(** The loop on records that all decode: it returns, with their Messages. *)
Lemma batchLoop_runs todo : forall i topic msgID rd props msgs σ m recs rest,
  heap σ !! props = Some m ->
  decodeRecords todo rd = Some (recs, rest) ->
  batchLoop todo i topic msgID rd props msgs σ
  = (Done ((msgs ++ messagesOf (TopicName_String topic) msgID props i recs)%list, None),
     State (<[props := overlayAll m recs.*1]> (heap σ)) (sent σ)).
Proof.
  induction todo as [| todo IH]; intros i topic msgID rd props msgs σ m recs rest Hl Hrecs.
  - injection Hrecs as <- <-. simpl. unfold ret.
    by rewrite app_nil_r, insert_id, state_eta.
  - pose proof (batchLoop_step todo i topic msgID rd props msgs σ m Hl) as Hstep.
    simpl in Hrecs.
    destruct (decodeRecord rd) as [meta p rd' | |]; [| discriminate..].
    destruct (decodeRecords todo rd') as [[recs' rest'] |] eqn:E; [| discriminate].
    injection Hrecs as <- <-. rewrite Hstep.
    rewrite (IH _ _ _ _ _ _ (State _ _) _ _ _ (lookup_insert_eq _ _ _) E).
    simpl. by rewrite <- app_assoc, insert_insert_eq, messagesOf_setBatchIndex.
Qed.

(** The loop on a batch whose [j]-th record from here crashes. *)
Lemma batchLoop_crashes j : forall todo i topic msgID rd props msgs σ m recs rest,
  heap σ !! props = Some m ->
  (j < todo)%nat ->
  decodeRecords j rd = Some (recs, rest) ->
  decodeRecord rest = Crashed ->
  exists msg σ', batchLoop todo i topic msgID rd props msgs σ = (Panic msg, σ').
Proof.
  induction j as [| j IH];
    intros todo i topic msgID rd props msgs σ m recs rest Hl Hlt Hrecs Hcrash;
    (destruct todo as [| todo]; [lia |]);
    pose proof (batchLoop_step todo i topic msgID rd props msgs σ m Hl) as Hstep;
    simpl in Hrecs.
  - injection Hrecs as <- <-. by rewrite Hcrash in Hstep.
  - destruct (decodeRecord rd) as [meta p rd' | |]; [| discriminate..].
    destruct (decodeRecords j rd') as [[recs' rest'] |] eqn:E; [| discriminate].
    injection Hrecs as <- <-. rewrite Hstep.
    eapply (IH _ _ _ _ _ _ _ (State _ _) (overlay m (MetaProperties meta)));
      [simpl; apply lookup_insert_eq | lia | exact E | exact Hcrash].
Qed.

Lemma messagesOf_payloads topic msgID props recs : forall i,
  Payload <$> messagesOf topic msgID props i recs = recs.*2.
Proof.
  induction recs as [| [meta p] recs IH]; intros i; [reflexivity |].
  simpl. f_equal. apply IH.
Qed.

End Frames.

(** X8. A body made of framed records (a four-byte big-endian length, that
    many bytes of metadata, and a payload of the size the metadata
    declare), as many as the declared batch size, is unpacked without
    error into Messages whose payloads are the framed payloads, in order;
    bytes after the last record are ignored. *)
Theorem batch_payloads_recovered `{C : Collaborators}
    topic msgID (fs : list frame) trailing props σ :
  Forall wellFramed fs ->
  Atoi (mapIndex σ props BatchHeader) = inr (Z.of_nat (length fs)) ->
  exists msgs σ',
    getIndividualMsgsFromBatch topic msgID
      (concat (frameBytes <$> fs) ++ trailing) props σ
    = (Done (msgs, None), σ')
    /\ Payload <$> msgs = framePayload <$> fs.
Proof.
  intros Hfs Hk. rewrite (getIndividualMsgsFromBatch_size _ _ _ _ _ _ Hk).
  destruct (Z.ltb_spec (Z.of_nat (length fs)) 0); [lia |].
  destruct (mapIndex_allocated _ _ _ _ Hk) as [shared Hl].
  rewrite Nat2Z.id.
  rewrite (batchLoop_runs _ _ _ _ _ _ _ _ _ _ _ Hl (decodeRecords_frames fs trailing Hfs)).
  eexists _, _. split; [reflexivity |].
  simpl. rewrite messagesOf_payloads, <- list_fmap_compose. reflexivity.
Qed.

Lemma batch_payloads_recovered_witness :
  exists msgs σ',
    @getIndividualMsgsFromBatch brokerSingle "t" id79
      (concat (frameBytes <$> [frameA; frameB]) ++ [xff; xff]%byte) 1%positive
      (storeWith shared2)
    = (Done (msgs, None), σ')
    /\ Payload <$> msgs = [[x41]; [x42]]%byte.
Proof.
  apply (@batch_payloads_recovered brokerSingle "t" id79 [frameA; frameB]
           [xff; xff]%byte 1%positive (storeWith shared2)).
  - repeat constructor.
  - vm_compute; reflexivity.
Defined.

(** X9. A record whose metadata declare a negative payload size makes the
    unpacker panic: [make] is called with that size before anything is
    read. The same holds for metadata with a nil key or value. *)
Theorem batch_negative_payload_size_panics `{C : Collaborators}
    topic msgID data props σ k (j : nat) recs pfx metaBytes meta rest :
  Atoi (mapIndex σ props BatchHeader) = inr k ->
  Z.of_nat j < k ->
  decodeRecords j data = Some (recs, (pfx ++ metaBytes ++ rest)%list) ->
  length pfx = 4%nat ->
  Uint32 pfx = Z.of_nat (length metaBytes) ->
  Unmarshal metaBytes = inr meta ->
  GetPayloadSize meta < 0 ->
  exists msg σ',
    getIndividualMsgsFromBatch topic msgID data props σ = (Panic msg, σ').
Proof.
  intros Hk Hj Hrecs Hlen Hsize Hmeta Hneg.
  rewrite (getIndividualMsgsFromBatch_size _ _ _ _ _ _ Hk).
  destruct (Z.ltb_spec k 0); [lia |].
  destruct (mapIndex_allocated _ _ _ _ Hk) as [shared Hl].
  eapply (batchLoop_crashes j); [exact Hl | lia | exact Hrecs |].
  unfold decodeRecord.
  replace 4 with (Z.of_nat (length pfx)) by (rewrite Hlen; reflexivity).
  rewrite ReadFull_exact, Hsize, ReadFull_exact, Hmeta.
  destruct (forallb kvSet (MetaProperties meta)); [| reflexivity].
  simpl negb. cbv iota.
  destruct (Z.ltb_spec (GetPayloadSize meta) 0); [reflexivity | lia].
Qed.

Lemma batch_negative_payload_size_panics_witness :
  exists msg σ',
    @getIndividualMsgsFromBatch brokerSingle "t" id79
      (frameBytes frameA ++ negativeSizeRecord) 1%positive (storeWith shared2)
    = (Panic msg, σ').
Proof.
  apply (@batch_negative_payload_size_panics brokerSingle "t" id79
           (frameBytes frameA ++ negativeSizeRecord) 1%positive (storeWith shared2)
           2 1%nat [(metaA, [x41]%byte)] [x00; x00; x00; x0b]%byte negativeSizeMeta
           (mkSingleMessageMetadata [] (Some (-1))) []).
  - vm_compute; reflexivity.
  - lia.
  - vm_compute; reflexivity.
  - reflexivity.
  - reflexivity.
  - vm_compute; reflexivity.
  - reflexivity.
Defined.

(** ** The peek loop, iteration by iteration *)

Section Loop.
Context `{C : Collaborators}.

Lemma peekLoop_step fuel topic sName n count msgs σ :
  0 < n ->
  peekLoop (S fuel) topic sName n count msgs σ
  = match peekNthMessage topic sName count σ with
    | (Done (_, Some err), σ1) => (Done (Some ([], Some err)), σ1)
    | (Done (m, None), σ1) =>
        peekLoop fuel topic sName (n - Z.of_nat (length m)) (count + 1)
          (msgs ++ m) σ1
    | (Panic msg, σ1) => (Panic msg, σ1)
    end.
Proof.
  intros Hn. simpl. destruct (Z.ltb_spec 0 n); [| lia]. unfold bind.
  by destruct (peekNthMessage topic sName count σ) as [[[m [err |]] | msg] σ1].
Qed.

Lemma peekLoop_stop fuel topic sName n count msgs σ :
  n <= 0 ->
  peekLoop fuel topic sName n count msgs σ = (Done (Some (msgs, None)), σ).
Proof.
  intros Hn. destruct fuel; simpl; destruct (Z.ltb_spec 0 n); (lia || reflexivity).
Qed.

Lemma progress_facts topic sName count n σ j ms n' σ' :
  progress topic sName count n σ j ms n' σ' ->
  n' = n - Z.of_nat (length ms)
  /\ sent σ' = (sent σ ++ positions count j)%list.
Proof.
  induction 1 as [count n σ | count n σ m σ1 j ms n' σ' Hn Hpeek _ [IHn IHs]].
  - unfold positions. simpl. rewrite app_nil_r. split; [lia | done].
  - apply peekNthMessage_sent in Hpeek.
    rewrite positions_S, IHs, Hpeek, <- app_assoc, length_app. split; [lia | done].
Qed.

Lemma progress_loop topic sName count n σ j ms n' σ' :
  progress topic sName count n σ j ms n' σ' ->
  forall fuel msgs,
    peekLoop (j + fuel) topic sName n count msgs σ
    = peekLoop fuel topic sName n' (count + Z.of_nat j) (msgs ++ ms) σ'.
Proof.
  induction 1 as [count n σ | count n σ m σ1 j ms n' σ' Hn Hpeek _ IH];
    intros fuel msgs.
  - by rewrite Z.add_0_r, app_nil_r.
  - change (S j + fuel)%nat with (S (j + fuel)).
    rewrite (peekLoop_step _ _ _ _ _ _ _ Hn), Hpeek, IH, app_assoc.
    f_equal. lia.
Qed.

(** Whatever the responses, what is returned without error is at least what
    was asked for. *)
Lemma peekLoop_enough fuel topic sName : forall n count msgs σ out σ',
  peekLoop fuel topic sName n count msgs σ = (Done (Some (out, None)), σ') ->
  n <= Z.of_nat (length out) - Z.of_nat (length msgs).
Proof.
  induction fuel as [| fuel IH]; intros n count msgs σ out σ' Hrun.
  - simpl in Hrun. destruct (Z.ltb_spec 0 n); [discriminate |].
    injection Hrun as <- _. lia.
  - destruct (Z.ltb_spec 0 n) as [Hn | Hn].
    + rewrite (peekLoop_step _ _ _ _ _ _ _ Hn) in Hrun.
      destruct (peekNthMessage topic sName count σ) as [[[m [err |]] | msg] σ1];
        [discriminate | | discriminate].
      apply IH in Hrun. rewrite length_app in Hrun. lia.
    + rewrite (peekLoop_stop _ _ _ _ _ _ _ Hn) in Hrun. injection Hrun as <- _. lia.
Qed.

End Loop.

(** X10. When the requests at positions 1, 2, ..., [j] succeed and bring,
    together, at least the [n] Messages asked for, the last one being
    needed, [PeekMessages] issues exactly these [j] requests and returns
    all the Messages they brought, in the order of the positions: every
    Message of a batch is kept, also beyond [n]. *)
Theorem PeekMessages_collects `{C : Collaborators}
    topic sName n σ (j : nat) ms n' σ' fuel :
  progress topic sName 1 n σ j ms n' σ' ->
  n' <= 0 ->
  (j <= fuel)%nat ->
  PeekMessages fuel topic sName n σ = (Done (Some (ms, None)), σ')
  /\ sent σ' = (sent σ ++ positions 1 j)%list
  /\ Z.of_nat (length ms) = n - n'.
Proof.
  intros Hp Hn' Hfuel. destruct (progress_facts _ _ _ _ _ _ _ _ _ Hp) as [Hrem Hsent].
  split; [| split; [done | lia]].
  unfold PeekMessages. replace fuel with (j + (fuel - j))%nat by lia.
  rewrite (progress_loop _ _ _ _ _ _ _ _ _ Hp). by apply peekLoop_stop.
Qed.

Lemma PeekMessages_collects_witness :
  exists ms σ',
    @PeekMessages brokerMixed 3 "t" "s" 4 emptyStore = (Done (Some (ms, None)), σ')
    /\ sent σ' = (sent emptyStore ++ positions 1 3)%list
    /\ Z.of_nat (length ms) = 4 - 0.
Proof.
  assert (Hp : exists ms σ', @progress brokerMixed "t" "s" 1 4 emptyStore 3 ms 0 σ').
  { eexists _, _.
    eapply progress_cons; [reflexivity | vm_compute; reflexivity |].
    eapply progress_cons; [reflexivity | vm_compute; reflexivity |].
    eapply progress_cons; [reflexivity | vm_compute; reflexivity |].
    apply progress_nil. }
  destruct Hp as (ms & σ' & Hp). exists ms, σ'.
  apply (@PeekMessages_collects brokerMixed "t" "s" 4 emptyStore 3 ms 0 σ' 3 Hp); lia.
Defined.

(** X11. When a request fails, or its response cannot be interpreted, after
    [j] requests that succeeded without bringing all the Messages asked
    for, [PeekMessages] returns that error and none of the Messages brought
    so far, and issues no further request. *)
Theorem PeekMessages_error_discards `{C : Collaborators}
    topic sName n σ (j : nat) ms n' σ1 m err σ2 fuel :
  progress topic sName 1 n σ j ms n' σ1 ->
  0 < n' ->
  peekNthMessage topic sName (1 + Z.of_nat j) σ1 = (Done (m, Some err), σ2) ->
  (j < fuel)%nat ->
  PeekMessages fuel topic sName n σ = (Done (Some ([], Some err)), σ2)
  /\ sent σ2 = (sent σ ++ positions 1 (S j))%list.
Proof.
  intros Hp Hn' Hfail Hfuel.
  destruct (progress_facts _ _ _ _ _ _ _ _ _ Hp) as [_ Hsent].
  split.
  - unfold PeekMessages. replace fuel with (j + S (fuel - S j))%nat by lia.
    rewrite (progress_loop _ _ _ _ _ _ _ _ _ Hp).
    by rewrite (peekLoop_step _ _ _ _ _ _ _ Hn'), Hfail.
  - apply peekNthMessage_sent in Hfail. rewrite Hfail, Hsent, <- app_assoc.
    f_equal. unfold positions. rewrite seq_S, fmap_app. reflexivity.
Qed.

Lemma PeekMessages_error_discards_witness :
  exists σ2,
    @PeekMessages brokerFailing 5 "t" "s" 5 emptyStore
    = (Done (Some ([], Some (OtherError "503 Service Unavailable"))), σ2)
    /\ sent σ2 = (sent emptyStore ++ positions 1 3)%list.
Proof.
  assert (Hp : exists ms σ1, @progress brokerFailing "t" "s" 1 5 emptyStore 2 ms 3 σ1).
  { eexists _, _.
    eapply progress_cons; [reflexivity | vm_compute; reflexivity |].
    eapply progress_cons; [reflexivity | vm_compute; reflexivity |].
    apply progress_nil. }
  destruct Hp as (ms & σ1 & Hp). eexists.
  eapply (@PeekMessages_error_discards brokerFailing "t" "s" 5 emptyStore 2 ms 3 σ1
            [] (OtherError "503 Service Unavailable") _ 5 Hp);
    [lia | reflexivity | lia].
Defined.

(** X12. Whenever [PeekMessages] returns without error, it returns at
    least as many Messages as were asked for. *)
Theorem PeekMessages_at_least `{C : Collaborators} fuel topic sName n σ ms σ' :
  PeekMessages fuel topic sName n σ = (Done (Some (ms, None)), σ') ->
  n <= Z.of_nat (length ms).
Proof.
  intros Hrun. apply peekLoop_enough in Hrun. simpl in Hrun. lia.
Qed.

Lemma PeekMessages_at_least_witness :
  exists ms σ',
    @PeekMessages brokerMixed 1 "t" "s" 1 emptyStore = (Done (Some (ms, None)), σ')
    /\ length ms = 2%nat
    /\ 1 <= Z.of_nat (length ms).
Proof.
  eexists _, _. split; [vm_compute; reflexivity |]. split; [reflexivity |].
  eapply (@PeekMessages_at_least brokerMixed 1 "t" "s" 1 emptyStore).
  vm_compute; reflexivity.
Defined.

(** ** Which maps are written *)

Lemma confined_ret {A} l (a : A) : confined l (ret a).
Proof. intros σ o σ' [= _ <-]. done. Qed.

Lemma confined_panic {A} l msg : confined l (@panic A msg).
Proof. intros σ o σ' [= _ <-]. done. Qed.

Lemma confined_mapLoad l k : confined l (mapLoad l k).
Proof. intros σ o σ' [= _ <-]. done. Qed.

Lemma confined_bind {A B} l (m : M A) (k : A -> M B) :
  confined l m -> (forall a, confined l (k a)) -> confined l (bind m k).
Proof.
  intros Hm Hk σ o σ'. unfold bind.
  destruct (m σ) as [[a | msg] σ1] eqn:E; intros H.
  - destruct (Hm _ _ _ E) as [Hm1 Hm2]. destruct (Hk a _ _ _ H) as [Hk1 Hk2].
    split; [| by eauto]. intros l' Hne. by rewrite Hk1, Hm1.
  - injection H as <- <-. by eapply Hm.
Qed.

Lemma confined_mapStore l k v : confined l (mapStore l k v).
Proof.
  intros σ o σ'. unfold mapStore.
  destruct (heap σ !! l) as [m |] eqn:E; intros [= _ <-]; [| done]. simpl. split.
  - intros l' Hne. by rewrite lookup_insert_ne.
  - intros _. rewrite lookup_insert_eq. eauto.
Qed.

Lemma confined_if {A} l (b : bool) (m1 m2 : M A) :
  confined l m1 -> confined l m2 -> confined l (if b then m1 else m2).
Proof. by destruct b. Qed.

Create HintDb confined.
#[export] Hint Resolve confined_ret confined_panic confined_mapLoad confined_bind
  confined_mapStore confined_if : confined.

Section Confinement.
Context `{C : Collaborators}.

Lemma confined_storeProperties l kvs : confined l (storeProperties l kvs).
Proof.
  induction kvs as [| [[k |] [v |]] kvs IH]; simpl; eauto with confined.
Qed.

Lemma confined_batchLoop todo : forall i topic msgID rd props msgs,
  confined props (batchLoop todo i topic msgID rd props msgs).
Proof.
  induction todo as [| todo IH]; intros; simpl; [eauto with confined |].
  destruct (ReadFull rd 4) as [[e | buf32] rd1]; [eauto with confined |].
  destruct (ReadFull rd1 (Uint32 buf32)) as [[e | metaBuf] rd2]; [eauto with confined |].
  destruct (Unmarshal metaBuf) as [e | meta]; [eauto with confined |].
  apply confined_bind;
    [apply confined_if; auto using confined_storeProperties with confined |].
  intros _. apply confined_if; [eauto with confined |].
  destruct (ReadFull rd2 (GetPayloadSize meta)) as [[e | payload] rd3];
    eauto with confined.
Qed.

Lemma confined_getIndividualMsgsFromBatch topic msgID data props :
  confined props (getIndividualMsgsFromBatch topic msgID data props).
Proof.
  unfold getIndividualMsgsFromBatch. apply confined_bind; [eauto with confined |].
  intros v. destruct (Atoi v); [eauto with confined |].
  apply confined_if; auto using confined_batchLoop with confined.
Qed.

Lemma confined_scanHeaders ks topic resp ID payload props :
  confined props (scanHeaders ks topic resp ID payload props).
Proof.
  induction ks as [| k ks IH]; simpl; [eauto with confined |].
  repeat apply confined_if;
    eauto using confined_getIndividualMsgsFromBatch with confined.
Qed.

(** The Messages of a batch hold the map they were given. *)
Lemma batchLoop_properties todo : forall i topic msgID rd props msgs σ out err σ',
  batchLoop todo i topic msgID rd props msgs σ = (Done (out, err), σ') ->
  Forall (fun m => Properties m = props) msgs ->
  Forall (fun m => Properties m = props) out.
Proof.
  induction todo as [| todo IH]; intros i topic msgID rd props msgs σ out err σ' H Hmsgs;
    simpl in H; [by injection H as <- _ |].
  destruct (ReadFull rd 4) as [[e | buf32] rd1]; [by injection H as <- _ |].
  destruct (ReadFull rd1 (Uint32 buf32)) as [[e | metaBuf] rd2]; [by injection H as <- _ |].
  destruct (Unmarshal metaBuf) as [e | meta]; [by injection H as <- _ |].
  unfold bind in H.
  destruct ((if 0 <? Z.of_nat (length (MetaProperties meta))
             then storeProperties props (MetaProperties meta) else ret tt) σ)
    as [[[] | msg] σ1]; [| discriminate].
  destruct (GetPayloadSize meta <? 0); [discriminate |].
  destruct (ReadFull rd2 (GetPayloadSize meta)) as [[e | payload] rd3];
    [by injection H as <- _ |].
  eapply IH; [exact H |]. apply Forall_app. split; [done |]. by repeat constructor.
Qed.

Lemma getIndividualMsgsFromBatch_properties topic msgID data props σ out err σ' :
  getIndividualMsgsFromBatch topic msgID data props σ = (Done (out, err), σ') ->
  Forall (fun m => Properties m = props) out.
Proof.
  unfold getIndividualMsgsFromBatch, bind, mapLoad.
  destruct (Atoi _) as [e | k]; [by intros [= <- _] |].
  destruct (k <? 0); [discriminate |].
  intros H. by eapply batchLoop_properties.
Qed.

Lemma scanHeaders_properties ks topic resp ID payload props : forall σ out err σ',
  scanHeaders ks topic resp ID payload props σ = (Done (out, err), σ') ->
  Forall (fun m => Properties m = props) out.
Proof.
  induction ks as [| k ks IH]; intros σ out err σ'; simpl.
  - intros [= <- _]. by repeat constructor.
  - destruct (String.eqb k PublishTimeHeader).
    { unfold bind, ret. destruct (negb _); [| apply IH].
      destruct (mapStore _ _ _ σ) as [[[] | msg] σ1]; [apply IH | discriminate]. }
    destruct (String.eqb k BatchHeader).
    { unfold bind, ret.
      destruct (negb _); [| apply getIndividualMsgsFromBatch_properties].
      destruct (mapStore _ _ _ σ) as [[[] | msg] σ1]; [| discriminate].
      apply getIndividualMsgsFromBatch_properties. }
    destruct (Contains k PropertyPrefix); [| apply IH].
    unfold bind. destruct (mapStore _ _ _ σ) as [[[] | msg] σ1]; [apply IH | discriminate].
Qed.

(** [handleResp] leaves every map of the store as it was. *)
Lemma handleResp_preserves topic resp ks σ o σ' l :
  handleResp topic resp ks σ = (o, σ') ->
  is_Some (heap σ !! l) -> heap σ' !! l = heap σ !! l.
Proof.
  unfold handleResp. intros H Hl.
  destruct (ParseMessageID _) as [e | ID]; [by injection H as _ <- |].
  destruct (Body resp) as [e | payload]; [by injection H as _ <- |].
  unfold bind, makeMap in H.
  assert (Hne : l <> fresh (dom (heap σ))).
  { intros ->. apply elem_of_dom in Hl. by apply is_fresh in Hl. }
  destruct (confined_scanHeaders _ _ _ _ _ _ _ _ _ H) as [Hother _].
  rewrite (Hother l Hne). simpl. by rewrite lookup_insert_ne.
Qed.

Lemma peekNthMessage_preserves topic sName pos σ o σ' l :
  peekNthMessage topic sName pos σ = (o, σ') ->
  is_Some (heap σ !! l) -> heap σ' !! l = heap σ !! l.
Proof.
  unfold peekNthMessage, bind, logRequest. intros H Hl.
  destruct (roundTrip topic sName pos); [by injection H as _ <- |].
  exact (handleResp_preserves _ _ _ _ _ _ _ H Hl).
Qed.

Lemma peekLoop_preserves fuel topic sName l : forall n count msgs σ o σ',
  peekLoop fuel topic sName n count msgs σ = (o, σ') ->
  is_Some (heap σ !! l) -> heap σ' !! l = heap σ !! l.
Proof.
  induction fuel as [| fuel IH]; intros n count msgs σ o σ' H Hl; simpl in H.
  - by destruct (0 <? n); injection H as _ <-.
  - destruct (0 <? n); [| by injection H as _ <-].
    unfold bind in H.
    destruct (peekNthMessage topic sName count σ) as [[[m [err |]] | msg] σ1] eqn:E;
      pose proof (peekNthMessage_preserves _ _ _ _ _ _ l E Hl) as Hstep.
    + by injection H as _ <-.
    + rewrite <- Hstep in Hl |- *. by eapply IH.
    + by injection H as _ <-.
Qed.

End Confinement.

(** X13. Every response gets a map of its own: the Messages that
    [handleResp] returns all hold one map that did not exist before the
    call, and no map that existed before the call is changed. *)
Theorem handleResp_fresh_map `{C : Collaborators} topic resp ks σ msgs err σ' :
  handleResp topic resp ks σ = (Done (msgs, err), σ') ->
  (forall l, is_Some (heap σ !! l) -> heap σ' !! l = heap σ !! l)
  /\ (forall m, m ∈ msgs ->
        heap σ !! Properties m = None /\ is_Some (heap σ' !! Properties m)).
Proof.
  intros Hrun. split.
  { intros l Hl. by eapply handleResp_preserves. }
  unfold handleResp in Hrun.
  destruct (ParseMessageID _) as [e | ID].
  { injection Hrun as <- _ _. intros m Hm. by apply elem_of_nil in Hm. }
  destruct (Body resp) as [e | payload].
  { injection Hrun as <- _ _. intros m Hm. by apply elem_of_nil in Hm. }
  unfold bind, makeMap in Hrun.
  pose proof (scanHeaders_properties _ _ _ _ _ _ _ _ _ _ Hrun) as Hprops.
  destruct (confined_scanHeaders _ _ _ _ _ _ _ _ _ Hrun) as [_ Halloc].
  intros m Hm. rewrite Forall_forall in Hprops. rewrite (Hprops m Hm). split.
  - apply not_elem_of_dom, is_fresh.
  - apply Halloc. simpl. rewrite lookup_insert_eq. eauto.
Qed.

Lemma handleResp_fresh_map_witness :
  exists msgs σ',
    @handleResp brokerBatch2 "t" respBatch2 (keysOf (Header respBatch2))
      (storeWith shared2) = (Done (msgs, None), σ')
    /\ length msgs = 2%nat
    /\ (forall l, is_Some (heap (storeWith shared2) !! l) ->
          heap σ' !! l = heap (storeWith shared2) !! l)
    /\ (forall m, m ∈ msgs ->
          heap (storeWith shared2) !! Properties m = None
          /\ is_Some (heap σ' !! Properties m)).
Proof.
  eexists _, _. split; [vm_compute; reflexivity |]. split; [reflexivity |].
  eapply (@handleResp_fresh_map brokerBatch2 "t" respBatch2 (keysOf (Header respBatch2))
            (storeWith shared2)).
  vm_compute; reflexivity.
Defined.

(** X14. [PeekMessages] changes no map that exists when it is called: the
    Properties of Messages returned earlier stay as they were. *)
Theorem PeekMessages_preserves_maps `{C : Collaborators}
    fuel topic sName n σ o σ' l (m : gmap string string) :
  PeekMessages fuel topic sName n σ = (o, σ') ->
  heap σ !! l = Some m ->
  heap σ' !! l = Some m.
Proof.
  intros Hrun Hl. rewrite <- Hl. eapply peekLoop_preserves; [exact Hrun | eauto].
Qed.

Lemma PeekMessages_preserves_maps_witness :
  heap (snd (@PeekMessages brokerMixed 3 "t" "s" 4 (storeWith shared2))) !! 1%positive
  = Some shared2.
Proof.
  eapply (@PeekMessages_preserves_maps brokerMixed 3 "t" "s" 4 (storeWith shared2)
            (fst (@PeekMessages brokerMixed 3 "t" "s" 4 (storeWith shared2)))).
  - by destruct (@PeekMessages brokerMixed 3 "t" "s" 4 (storeWith shared2)).
  - reflexivity.
Defined.

(** X15. The three ways in which [peekNthMessage] fails before any header
    is scanned: the request fails, the message id does not parse, or, the
    id having parsed, the body cannot be read. Each returns the error and
    no Message, after the one request, without allocating a map. *)
Theorem peekNthMessage_failures `{C : Collaborators} topic sName pos σ err :
  roundTrip topic sName pos = inl err
  \/ (exists resp,
        roundTrip topic sName pos = inr resp
        /\ (ParseMessageID (Header_Get (Header resp) "X-Pulsar-Message-ID") = inl err
            \/ (exists ID,
                  ParseMessageID (Header_Get (Header resp) "X-Pulsar-Message-ID")
                  = inr ID
                  /\ Body resp = inl err))) ->
  peekNthMessage topic sName pos σ
  = (Done ([], Some err), State (heap σ) (sent σ ++ [pos])).
Proof.
  unfold peekNthMessage, bind, logRequest, handleResp.
  intros [-> | (resp & -> & [-> | (ID & -> & ->)])]; reflexivity.
Qed.

Lemma peekNthMessage_failures_witness :
  @peekNthMessage (demo (always respNoID) (fun r => keysOf (Header r))) "t" "s" 1
    emptyStore
  = (Done ([], Some (OtherError "invalid message id string")), State ∅ [1])
  /\ @peekNthMessage (demo (always respBadBody) (fun r => keysOf (Header r))) "t" "s" 1
       emptyStore
     = (Done ([], Some ErrUnexpectedEOF), State ∅ [1]).
Proof.
  split.
  - apply (@peekNthMessage_failures
             (demo (always respNoID) (fun r => keysOf (Header r))) "t" "s" 1 emptyStore).
    right. exists respNoID. split; [reflexivity |]. left. vm_compute; reflexivity.
  - apply (@peekNthMessage_failures
             (demo (always respBadBody) (fun r => keysOf (Header r))) "t" "s" 1
             emptyStore).
    right. exists respBadBody. split; [reflexivity |]. right. exists id79.
    split; [vm_compute; reflexivity | reflexivity].
Defined.

(** Keys written by [overlay] stay. *)
Lemma overlay_keeps kvs : forall (m : gmap string string) (k : string),
  is_Some (m !! k) -> is_Some (overlay m kvs !! k).
Proof.
  induction kvs as [| [[k0 |] [v0 |]] kvs IH]; intros m k Hk; try done;
    try (by apply (IH m)).
  apply (IH (<[k0 := v0]> m)). apply lookup_insert_is_Some.
  destruct (decide (k0 = k)); [by left | by right].
Qed.

Lemma overlay_has kvs : forall (m : gmap string string) kv,
  kv ∈ kvs -> forallb kvSet kvs = true ->
  exists k, Key kv = Some k /\ is_Some (overlay m kvs !! k).
Proof.
  induction kvs as [| [[k0 |] [v0 |]] kvs IH]; intros m kv Hin Hset;
    try discriminate Hset; [by apply elem_of_nil in Hin |].
  apply elem_of_cons in Hin as [-> | Hin].
  - exists k0. split; [done |]. apply (overlay_keeps kvs (<[k0 := v0]> m)).
    rewrite lookup_insert_eq. eauto.
  - apply (IH (<[k0 := v0]> m) kv Hin Hset).
Qed.

Lemma overlayAll_keeps metas : forall (m : gmap string string) (k : string),
  is_Some (m !! k) -> is_Some (overlayAll m metas !! k).
Proof.
  induction metas as [| meta metas IH]; intros m k Hk; [done |].
  apply (IH (overlay m (MetaProperties meta))). by apply overlay_keeps.
Qed.

Lemma overlayAll_has metas : forall (m : gmap string string) meta kv,
  meta ∈ metas -> kv ∈ MetaProperties meta ->
  forallb kvSet (MetaProperties meta) = true ->
  exists k, Key kv = Some k /\ is_Some (overlayAll m metas !! k).
Proof.
  induction metas as [| meta0 metas IH]; intros m meta kv Hin Hkv Hset;
    [by apply elem_of_nil in Hin |].
  apply elem_of_cons in Hin as [-> | Hin].
  - destruct (overlay_has _ m kv Hkv Hset) as (k & Hk & Hsome).
    exists k. split; [done |].
    by apply (overlayAll_keeps metas (overlay m (MetaProperties meta0))).
  - apply (IH (overlay m (MetaProperties meta0)) meta kv Hin Hkv Hset).
Qed.

Lemma messagesOf_topics topic msgID props recs : forall i,
  Forall (fun m => Topic m = topic /\ Properties m = props)
    (messagesOf topic msgID props i recs).
Proof.
  induction recs as [| [meta p] recs IH]; intros i; simpl; [constructor |].
  constructor; [done | apply IH].
Qed.

(** X16. A batched response, end to end: when the batch-size header holds
    the number of framed records of which the body is made, [handleResp]
    returns, whatever the order of the scan, one Message per record, with
    the record's payload and the topic's name, all holding a map in which
    every property key that any record declares is present. *)
Theorem handleResp_batch_unpacked `{C : Collaborators}
    topic resp ks ID (fs : list frame) (trailing : list byte) σ v :
  range_order (Header resp) ks ->
  ParseMessageID (Header_Get (Header resp) "X-Pulsar-Message-ID") = inr ID ->
  Forall wellFramed fs ->
  Body resp = inr (concat (frameBytes <$> fs) ++ trailing)%list ->
  Header_Get (Header resp) BatchHeader = v -> v <> "" ->
  Atoi v = inr (Z.of_nat (length fs)) ->
  exists msgs σ',
    handleResp topic resp ks σ = (Done (msgs, None), σ')
    /\ Payload <$> msgs = framePayload <$> fs
    /\ Forall (fun m => Topic m = TopicName_String topic) msgs
    /\ forall m f kv, m ∈ msgs -> f ∈ fs -> kv ∈ MetaProperties (frameMeta f) ->
         exists k, Key kv = Some k /\ is_Some (deref σ' (Properties m) !! k).
Proof.
  intros Hks HID Hfs Hbody Hv Hne Hn.
  assert (Hin : BatchHeader ∈ ks).
  { apply (range_order_elem _ _ _ Hks). by apply (Header_Get_present _ _ v). }
  destruct (handleResp_batched topic resp ks ID _ σ v HID Hbody Hin Hv Hne)
    as (l & σb & _ & Hsize & ->).
  rewrite <- Hsize in Hn.
  rewrite (getIndividualMsgsFromBatch_size _ _ _ _ _ _ Hn).
  destruct (Z.ltb_spec (Z.of_nat (length fs)) 0); [lia |].
  destruct (mapIndex_allocated _ _ _ _ Hn) as [shared Hl].
  rewrite Nat2Z.id.
  rewrite (batchLoop_runs _ _ _ _ _ _ _ _ _ _ _ Hl (decodeRecords_frames fs trailing Hfs)).
  eexists _, _. split; [reflexivity |]. simpl.
  pose proof (messagesOf_topics (TopicName_String topic) ID l
                ((fun f => (frameMeta f, framePayload f)) <$> fs) 0) as Hmsgs.
  split; [| split].
  - rewrite messagesOf_payloads, <- list_fmap_compose. reflexivity.
  - eapply Forall_impl; [exact Hmsgs |]. by intros m [? _].
  - intros m f kv Hm Hf Hkv. rewrite Forall_forall in Hmsgs.
    destruct (Hmsgs m Hm) as [_ ->]. unfold deref. simpl. rewrite lookup_insert_eq.
    simpl. rewrite <- list_fmap_compose.
    rewrite Forall_forall in Hfs. destruct (Hfs f Hf) as (_ & _ & _ & Hset & _).
    apply (overlayAll_has _ shared (frameMeta f) kv); [| done | done].
    apply list_elem_of_fmap. by exists f.
Qed.

Lemma handleResp_batch_unpacked_witness :
  exists msgs σ',
    @handleResp brokerBatch2 "t" respBatch2 (keysOf (Header respBatch2)) emptyStore
    = (Done (msgs, None), σ')
    /\ Payload <$> msgs = [[x41]; [x42]]%byte
    /\ Forall (fun m => Topic m = "t") msgs
    /\ forall m f kv, m ∈ msgs -> f ∈ [frameA; frameB] ->
         kv ∈ MetaProperties (frameMeta f) ->
         exists k, Key kv = Some k /\ is_Some (deref σ' (Properties m) !! k).
Proof.
  apply (@handleResp_batch_unpacked brokerBatch2 "t" respBatch2
           (keysOf (Header respBatch2)) id79 [frameA; frameB] [] emptyStore "2").
  - unfold range_order, keysOf. reflexivity.
  - vm_compute; reflexivity.
  - repeat constructor.
  - reflexivity.
  - vm_compute; reflexivity.
  - discriminate.
  - reflexivity.
Defined.
